(** * Voxe e-book reader: sentence segmentation and narration coordinator

    A shallow embedding of [src/app/page.tsx]: the pure function
    [splitIntoSentences] and the playback handlers [handlePlay],
    [handleSentenceClick] together with the callbacks they bind on a
    speech utterance. *)

From Equations Require Import Equations.
From Stdlib Require Import List ZArith NArith Lia Bool Sorted.
From Stdlib Require Strings.String Strings.Ascii.
Import ListNotations.
Import String.StringSyntax.
Local Open Scope string_scope.
Local Open Scope list_scope.

(** ** JavaScript strings

    A JavaScript string is a sequence of UTF-16 code units; the regular
    expressions of the source carry no [u] flag, so they work code unit by
    code unit. *)

Definition char := N.
Definition jsstring := list char.

(** A literal of the source, written as a Rocq string. *)
Definition lit (s : String.string) : jsstring :=
  map Ascii.N_of_ascii (String.list_ascii_of_string s).

Definition SP : char := 32%N.
Definition LF : char := 10%N.

(** The class [\s] of a JavaScript regular expression, which is also the
    set of code units removed by [String.prototype.trim]: U+0009 to U+000D,
    U+0020, U+00A0, U+1680, U+2000 to U+200A, U+2028, U+2029, U+202F,
    U+205F, U+3000 and U+FEFF. *)
Definition is_ws (c : char) : bool :=
  (((9 <=? c) && (c <=? 13)) || (c =? 32) || (c =? 160) || (c =? 5760)
   || ((8192 <=? c) && (c <=? 8202)) || (c =? 8232) || (c =? 8233)
   || (c =? 8239) || (c =? 8287) || (c =? 12288) || (c =? 65279))%N.

(** The class [[.!?]]. *)
Definition is_term (c : char) : bool :=
  ((c =? 46) || (c =? 33) || (c =? 63))%N.

Definition starts_ws (s : jsstring) : bool :=
  match s with
  | c :: _ => is_ws c
  | [] => false
  end.

(** [text.replace(/\s+/g, ' ')]: every maximal run of whitespace becomes one
    space. The space is emitted at the last code unit of the run. *)
Fixpoint replace_ws (s : jsstring) : jsstring :=
  match s with
  | [] => []
  | c :: r =>
      if is_ws c
      then (if starts_ws r then replace_ws r else SP :: replace_ws r)
      else c :: replace_ws r
  end.

Fixpoint trimStart (s : jsstring) : jsstring :=
  match s with
  | [] => []
  | c :: r => if is_ws c then trimStart r else s
  end.

Fixpoint trimEnd (s : jsstring) : jsstring :=
  match s with
  | [] => []
  | c :: r =>
      match trimEnd r with
      | [] => if is_ws c then [] else [c]
      | t => c :: t
      end
  end.

(** [s.trim()]. *)
Definition trim (s : jsstring) : jsstring := trimEnd (trimStart s).

(** [s.substring(a, b)] for non-negative arguments: both are clamped to the
    length and swapped when [a > b]. *)
Definition substring (s : jsstring) (a b : nat) : jsstring :=
  let a' := Nat.min a (length s) in
  let b' := Nat.min b (length s) in
  firstn (Nat.max a' b' - Nat.min a' b') (skipn (Nat.min a' b') s).

(** [s.substring(a)]. *)
Definition substring_from (s : jsstring) (a : nat) : jsstring :=
  substring s a (length s).

(** [a.join(' ')] on an array of strings. *)
Fixpoint join_sp (l : list jsstring) : jsstring :=
  match l with
  | [] => []
  | [x] => x
  | x :: r => x ++ SP :: join_sp r
  end.

(** ** The regular expression [/([.!?]+)\s+/g] *)

(** Length of the longest prefix of [s] made of code units in [p]. *)
Fixpoint span (p : char -> bool) (s : jsstring) : nat :=
  match s with
  | c :: r => if p c then S (span p r) else 0
  | [] => 0
  end.

(** The pattern matched at the head of [s]: the length of group 1 and the
    length of the whole match. Both quantifiers are greedy; giving back a
    terminator never helps, since the code unit that follows it is then a
    terminator and not whitespace. *)
Definition match_here (s : jsstring) : option (nat * nat) :=
  let n1 := span is_term s in
  let n2 := span is_ws (skipn n1 s) in
  if (0 <? n1) && (0 <? n2) then Some (n1, n1 + n2) else None.

(** Leftmost match in [s], where [s] starts at index [i] of the subject:
    [(match.index, match[1].length, match[0].length)]. *)
Fixpoint search (s : jsstring) (i : nat) : option (nat * nat * nat) :=
  match match_here s with
  | Some (l1, l0) => Some (i, l1, l0)
  | None =>
      match s with
      | [] => None
      | _ :: r => search r (S i)
      end
  end.

(** [sentenceEndings.exec(s)] with the expression's [lastIndex] at
    [lastIndex]. *)
Definition exec (s : jsstring) (lastIndex : nat) : option (nat * nat * nat) :=
  if length s <? lastIndex then None
  else search (skipn lastIndex s) lastIndex.

(** ** Sentences *)

Record Sentence := mkSentence {
  text : jsstring;
  startIndex : Z;
  endIndex : Z
}.

(** A match is never empty and lies inside the subject: this is what makes
    the scanning loop below terminate. *)
Lemma span_le p s : span p s <= length s.
Proof.
  induction s as [|c r IH]; simpl; [lia|].
  destruct (p c); simpl; lia.
Qed.

Lemma match_here_bounds s l1 l0 :
  match_here s = Some (l1, l0) -> 0 < l1 /\ l1 < l0 /\ l0 <= length s.
Proof.
  unfold match_here.
  destruct (0 <? span is_term s) eqn:H1; simpl; [|discriminate].
  destruct (0 <? span is_ws (skipn (span is_term s) s)) eqn:H2; [|discriminate].
  intros E. injection E as <- <-.
  apply Nat.ltb_lt in H1, H2.
  pose proof (span_le is_term s) as B1.
  pose proof (span_le is_ws (skipn (span is_term s) s)) as B2.
  rewrite length_skipn in B2. lia.
Qed.

Lemma search_bounds s : forall i idx l1 l0,
  search s i = Some (idx, l1, l0) ->
  i <= idx /\ 0 < l1 /\ l1 < l0 /\ idx + l0 <= i + length s.
Proof.
  induction s as [|c r IH]; intros i idx l1 l0; simpl.
  - discriminate.
  - destruct (match_here (c :: r)) as [[a b]|] eqn:M.
    + intros E. injection E as <- <- <-.
      apply match_here_bounds in M. simpl in M. lia.
    + intros E. apply IH in E. lia.
Qed.

Lemma exec_bounds s lastIndex idx l1 l0 :
  exec s lastIndex = Some (idx, l1, l0) ->
  lastIndex <= idx /\ 0 < l1 /\ l1 < l0 /\ idx + l0 <= length s.
Proof.
  unfold exec. destruct (length s <? lastIndex) eqn:B; [discriminate|].
  apply Nat.ltb_ge in B. intros E. apply search_bounds in E.
  rewrite length_skipn in E. lia.
Qed.

(** [sentences.push(...)] guarded by [if (t.length > 0)]. *)
Definition push_nonempty (sentences : list Sentence) (t : jsstring)
    (a b : nat) : list Sentence :=
  if 0 <? length t
  then sentences ++ [mkSentence t (Z.of_nat a) (Z.of_nat b)]
  else sentences.

(** A value together with the equation that names it, so that the
    termination proof of the loop sees what [exec] returned. *)
Definition inspect {A : Type} (a : A) : {b : A | a = b} :=
  exist _ a eq_refl.

(** The [while ((match = sentenceEndings.exec(cleanedText)) !== null)] loop
    (lines 48 to 58). The variable [lastIndex] and the expression's own
    [lastIndex] are both [match.index + match[0].length] after every
    iteration and both 0 before the first, so one argument stands for the
    two. The result is the array and the final [lastIndex]. *)
Equations? scan (cleanedText : jsstring) (lastIndex : nat)
    (sentences : list Sentence) : list Sentence * nat
    by wf (length cleanedText - lastIndex) lt :=
  scan cleanedText lastIndex sentences
    with inspect (exec cleanedText lastIndex) := {
    | exist _ (Some (idx, l1, l0)) _ =>
        let sentenceText :=
          trim (substring cleanedText lastIndex (idx + l1)) in
        scan cleanedText (idx + l0)
          (push_nonempty sentences sentenceText lastIndex (idx + l1));
    | exist _ None _ => (sentences, lastIndex) }.
Proof.
  apply exec_bounds in e. lia.
Qed.

(** [cleanedText.split(/\n+/)]. *)
Fixpoint split_lines_from (cur : jsstring) (s : jsstring) : list jsstring :=
  match s with
  | [] => [rev cur]
  | c :: r =>
      if (c =? LF)%N
      then match r with
           | d :: _ =>
               if (d =? LF)%N then split_lines_from cur r
               else rev cur :: split_lines_from [] r
           | [] => rev cur :: split_lines_from [] r
           end
      else split_lines_from (c :: cur) r
  end.

Definition split_lines (s : jsstring) : list jsstring :=
  split_lines_from [] s.

Fixpoint starts_with (pat s : jsstring) : bool :=
  match pat, s with
  | [], _ => true
  | _ :: _, [] => false
  | p :: pat', c :: s' => (p =? c)%N && starts_with pat' s'
  end.

(** First index [k >= i] at which [pat] occurs in the subject, where [s] is
    the subject from index [i] on; -1 when there is none. *)
Fixpoint index_from (pat s : jsstring) (i : Z) : Z :=
  if starts_with pat s then i
  else match s with
       | [] => (-1)%Z
       | _ :: r => index_from pat r (i + 1)%Z
       end.

(** [s.indexOf(pat, from)]: [from] is clamped to [0 .. s.length]. *)
Definition indexOf (s pat : jsstring) (from : Z) : Z :=
  let k := Z.to_nat (Z.min (Z.max from 0) (Z.of_nat (length s))) in
  index_from pat (skipn k s) (Z.of_nat k).

(** The [lines.forEach] of the fallback (lines 76 to 88): the array and
    [currentIndex] are threaded through the lines. *)
Definition line_step (cleanedText : jsstring)
    (acc : list Sentence * Z) (line : jsstring) : list Sentence * Z :=
  let '(sentences, currentIndex) := acc in
  let trimmedLine := trim line in
  if 0 <? length trimmedLine then
    let startIndex := indexOf cleanedText trimmedLine currentIndex in
    let endIndex := (startIndex + Z.of_nat (length trimmedLine))%Z in
    (sentences ++ [mkSentence trimmedLine startIndex endIndex], endIndex)
  else acc.

(** [splitIntoSentences] (lines 33 to 99). *)
Definition splitIntoSentences (text : jsstring) : list Sentence :=
  let cleanedText := trim (replace_ws text) in
  match cleanedText with
  | [] => []
  | _ :: _ =>
      let '(sentences, lastIndex) := scan cleanedText 0 [] in
      let sentences :=
        if lastIndex <? length cleanedText then
          let remainingText := trim (substring_from cleanedText lastIndex) in
          push_nonempty sentences remainingText lastIndex (length cleanedText)
        else sentences in
      match sentences with
      | [] =>
          let lines :=
            filter (fun line => 0 <? length (trim line))
                   (split_lines cleanedText) in
          if 1 <? length lines then
            fst (fold_left (line_step cleanedText) lines ([], 0%Z))
          else
            [mkSentence cleanedText 0 (Z.of_nat (length cleanedText))]
      | _ :: _ => sentences
      end
  end.

(** [cleanedText] of the source. *)
Definition normalize (text : jsstring) : jsstring := trim (replace_ws text).

(** ** The narration coordinator: state, engine and effects *)

(** The React state of the component that the playback handlers read and
    set. *)
Record State := mkState {
  sentences : list Sentence;
  isPlaying : bool;
  currentSentenceIndex : option Z;
  error : option jsstring
}.

(** What the handlers observe of [window.speechSynthesis] when they run:
    ['speechSynthesis' in window], [.speaking], [.paused] and
    [.getVoices().length]. When [available] is false the object is
    [undefined], and reading one of the other three throws. *)
Record Synth := mkSynth {
  available : bool;
  speaking : bool;
  paused : bool;
  voices : nat
}.

(** An entry [{ index, charStart }] of [sentenceStartIndices]. *)
Record Entry := mkEntry {
  index : Z;
  charStart : Z
}.

(** A [SpeechSynthesisUtterance] as the handlers build it: the text, and the
    two values its callbacks close over. Language, rate and pitch are
    constants of the source. *)
Record Utterance := mkUtterance {
  utt_text : jsstring;
  utt_startIndex : Z;
  sentenceStartIndices : list Entry
}.

(** [SpeechSynthesisErrorCode], the union of string literals that the DOM
    typings of TypeScript give to [event.error] of a
    [SpeechSynthesisErrorEvent]. *)
Inductive SpeechSynthesisErrorCode :=
| audio_busy | audio_hardware | canceled | interrupted | invalid_argument
| language_unavailable | network | not_allowed | synthesis_failed
| synthesis_unavailable | text_too_long | voice_unavailable.

Definition code_name (c : SpeechSynthesisErrorCode) : jsstring :=
  match c with
  | audio_busy => lit "audio-busy"
  | audio_hardware => lit "audio-hardware"
  | canceled => lit "canceled"
  | interrupted => lit "interrupted"
  | invalid_argument => lit "invalid-argument"
  | language_unavailable => lit "language-unavailable"
  | network => lit "network"
  | not_allowed => lit "not-allowed"
  | synthesis_failed => lit "synthesis-failed"
  | synthesis_unavailable => lit "synthesis-unavailable"
  | text_too_long => lit "text-too-long"
  | voice_unavailable => lit "voice-unavailable"
  end.

Fixpoint str_eqb (a b : jsstring) : bool :=
  match a, b with
  | [], [] => true
  | x :: a', y :: b' => (x =? y)%N && str_eqb a' b'
  | _, _ => false
  end.

(** What a handler or a callback does, in order: the state setters it calls,
    the commands it sends to the engine and the continuations it
    registers. [ThrowTypeError] is the uncaught [TypeError] of reading a
    property of [window.speechSynthesis] when that is [undefined]: the
    handler stops there. *)
Inductive Effect :=
| SetError (msg : jsstring)
| SetIsPlaying (b : bool)
| SetCurrentSentenceIndex (i : option Z)
| ScrollIntoView (i : Z)
| SynthPause
| SynthResume
| SynthCancel
| SynthSpeak (u : Utterance)
| OnVoicesChanged (u : Utterance)
| SetTimeout (ms : nat) (u : Utterance)
| ThrowTypeError.

Definition apply_effect (st : State) (e : Effect) : State :=
  match e with
  | SetError m =>
      mkState (sentences st) (isPlaying st) (currentSentenceIndex st) (Some m)
  | SetIsPlaying b =>
      mkState (sentences st) b (currentSentenceIndex st) (error st)
  | SetCurrentSentenceIndex i =>
      mkState (sentences st) (isPlaying st) i (error st)
  | _ => st
  end.

(** The state after the setters of a trace have taken effect. *)
Definition run (st : State) (tr : list Effect) : State :=
  fold_left apply_effect tr st.

(** [a.slice(start)]: a negative [start] counts from the end. *)
Definition slice_from {A : Type} (a : list A) (start : Z) : list A :=
  let len := Z.of_nat (length a) in
  let k := if (start <? 0)%Z then Z.max (len + start) 0 else Z.min start len in
  skipn (Z.to_nat k) a.

(** [sentences.slice(i).map(s => s.text).join(' ').trim()]. *)
Definition textToRead (sentences : list Sentence) (i : Z) : jsstring :=
  trim (join_sp (map text (slice_from sentences i))).

(** The [map] callback of lines 391 to 395 and 546 to 550, with [charCount]
    threaded through the entries. *)
Fixpoint startIndices (l : list Sentence) (i charCount : Z) : list Entry :=
  match l with
  | [] => []
  | s :: r =>
      mkEntry i charCount
        :: startIndices r (i + 1)%Z
             (charCount + Z.of_nat (length (text s)) + 1)%Z
  end.

Definition buildUtterance (sentences : list Sentence) (i : Z) : Utterance :=
  mkUtterance (textToRead sentences i) i
    (startIndices (slice_from sentences i) i 0%Z).

(** The [for] loop of [onboundary], on the table read from its last entry to
    its first. *)
Fixpoint resolve_down (rtable : list Entry) (currentCharIndex : Z) : option Z :=
  match rtable with
  | [] => None
  | e :: r =>
      if (charStart e <=? currentCharIndex)%Z then Some (index e)
      else resolve_down r currentCharIndex
  end.

Definition resolve (table : list Entry) (currentCharIndex : Z) : option Z :=
  resolve_down (rev table) currentCharIndex.

(** [utterance.onboundary] (lines 397 to 422 and 552 to 575). The scroll is
    what the source asks for when the sentence's element is mounted. *)
Definition onboundary (u : Utterance) (name : jsstring) (charIndex : Z)
    : list Effect :=
  if str_eqb name (lit "word") || str_eqb name (lit "sentence") then
    match resolve (sentenceStartIndices u) charIndex with
    | Some i => [SetCurrentSentenceIndex (Some i); ScrollIntoView i]
    | None => []
    end
  else [].


(** [utterance.onerror] (lines 429 to 465 and 582 to 618); the two copies
    are the same text. [None] stands for an [event.error] that is
    [undefined]. *)
Definition onerror (ev_error : option SpeechSynthesisErrorCode) : list Effect :=
  let isCancellation :=
    match ev_error with
    | None => true
    | Some canceled => true
    | Some interrupted => true
    | Some _ => false
    end in
  if isCancellation then
    [SetIsPlaying false; SetCurrentSentenceIndex None]
  else
    [SetError (lit "Speech synthesis error: "
               ++ match ev_error with
                  | Some c => code_name c
                  | None => lit "Unknown error"
                  end);
     SetIsPlaying false; SetCurrentSentenceIndex None].

(** [utterance.onstart] (lines 467 to 470 and 620 to 623). *)
Definition onstart (u : Utterance) : list Effect :=
  [SetCurrentSentenceIndex (Some (utt_startIndex u)); SetIsPlaying true].

(** The listener registered for [voiceschanged]. *)
Definition voiceschanged (u : Utterance) : list Effect :=
  [SynthCancel; SynthSpeak u].

(** Lines 473 to 484 and 626 to 637: speak at once, or when the voices are
    there. They stand inside the [try] of lines 380 and 533: without
    [speechSynthesis] the exception is caught and reported (lines 485 to 488
    and 638 to 641). *)
Definition speak_when_ready (synth : Synth) (u : Utterance) : list Effect :=
  if negb (available synth) then
    [SetError (lit "Failed to start speech synthesis. Please try again.")]
  else if voices synth =? 0 then [OnVoicesChanged u]
  else [SynthCancel; SynthSpeak u].

(** The callback given to [setTimeout] in [handleSentenceClick], run with
    the engine as it is 100 ms later. *)
Definition timeout_fired (synth : Synth) (u : Utterance) : list Effect :=
  speak_when_ready synth u.

Definition is_nil {A : Type} (l : list A) : bool :=
  match l with
  | [] => true
  | _ :: _ => false
  end.

Definition is_some {A : Type} (o : option A) : bool :=
  match o with
  | Some _ => true
  | None => false
  end.

(** [handlePlay] (lines 341 to 489). Line 348 reads
    [window.speechSynthesis.paused] when [isPlaying] is false, and line 357
    reads [.speaking] when it is true: without [speechSynthesis] either read
    throws, before the test of line 367 is reached. *)
Definition handlePlay (st : State) (synth : Synth) : list Effect :=
  if length (sentences st) =? 0 then
    [SetError (lit "Please upload and parse an EPUB file first")]
  else if negb (isPlaying st) && negb (available synth) then
    [ThrowTypeError]
  else if negb (isPlaying st) && paused synth
          && is_some (currentSentenceIndex st) then
    [SynthResume; SetIsPlaying true]
  else if isPlaying st then
    if negb (available synth) then [ThrowTypeError]
    else
      (if speaking synth then [SynthPause] else []) ++ [SetIsPlaying false]
  else if negb (available synth) then
    [SetError (lit "Speech synthesis is not supported in this browser")]
  else
    let startIndex :=
      match currentSentenceIndex st with
      | Some i => i
      | None => 0%Z
      end in
    if is_nil (textToRead (sentences st) startIndex) then []
    else speak_when_ready synth (buildUtterance (sentences st) startIndex).

Definition same_index (current : option Z) (i : Z) : bool :=
  match current with
  | Some c => (c =? i)%Z
  | None => false
  end.

(** Lines 510 to 643 of [handleSentenceClick]: stop, then start again from
    the clicked sentence. Line 511 reads [window.speechSynthesis.speaking]:
    without [speechSynthesis] it throws before any setter, and the test of
    line 526 is not reached. *)
Definition restart_from (st : State) (synth : Synth) (i : Z) : list Effect :=
  if negb (available synth) then [ThrowTypeError]
  else
    (if speaking synth then [SynthCancel] else [])
    ++ [SetIsPlaying false; SetCurrentSentenceIndex None]
    ++ (if is_nil (textToRead (sentences st) i) then []
        else if negb (available synth) then
          [SetError (lit "Speech synthesis is not supported in this browser")]
        else [SetTimeout 100 (buildUtterance (sentences st) i)]).

(** [handleSentenceClick] (lines 491 to 643). Line 494 reads
    [window.speechSynthesis.speaking]: without [speechSynthesis] it
    throws. *)
Definition handleSentenceClick (st : State) (synth : Synth) (i : Z)
    : list Effect :=
  if isPlaying st && same_index (currentSentenceIndex st) i then
    if negb (available synth) then [ThrowTypeError]
    else if speaking synth && negb (paused synth) then
      [SynthPause; SetIsPlaying false]
    else if paused synth then
      [SynthResume; SetIsPlaying true]
    else restart_from st synth i
  else restart_from st synth i.

(** The three playback states of the specification, as the Play button
    shows them (line 708): Pause when playing, Resume when stopped on a
    sentence, Play otherwise. *)
Inductive PlaybackState := Idle | Playing | Paused.

Definition playbackState (st : State) : PlaybackState :=
  if isPlaying st then Playing
  else if is_some (currentSentenceIndex st) then Paused
  else Idle.

(** The narration requests a trace issues, at once or deferred. *)
Definition requests (tr : list Effect) : list Utterance :=
  flat_map (fun e =>
    match e with
    | SynthSpeak u | OnVoicesChanged u | SetTimeout _ u => [u]
    | _ => []
    end) tr.

(** The commands a trace sends to the engine. *)
Definition is_command (e : Effect) : bool :=
  match e with
  | SynthPause | SynthResume | SynthCancel | SynthSpeak _ => true
  | _ => false
  end.

Definition commands (tr : list Effect) : list Effect := filter is_command tr.

(** The error messages a trace shows to the user. *)
Definition error_notifications (tr : list Effect) : list jsstring :=
  flat_map (fun e =>
    match e with
    | SetError m => [m]
    | _ => []
    end) tr.

(** What the segmentation of a normalized text [s] from index [L] on looks
    like: each unit starts where the previous one ended plus one space, its
    text is trimmed, not empty, and is the text found at its offsets; the
    last unit ends with [s]. *)
Fixpoint covers (s : jsstring) (L : nat) (us : list Sentence) : Prop :=
  match us with
  | [] => True
  | u :: r =>
      startIndex u = Z.of_nat L /\
      endIndex u = Z.of_nat (L + length (text u)) /\
      text u <> [] /\ trim (text u) = text u /\
      (match r with
       | [] => skipn L s = text u
       | _ :: _ => exists rest, skipn L s = text u ++ SP :: rest
       end) /\
      covers s (L + length (text u) + 1) r
  end.

(** [u] comes before [v] and their half-open intervals do not overlap. *)
Definition precedes (u v : Sentence) : Prop :=
  (startIndex u <= startIndex v)%Z /\ (endIndex u <= startIndex v)%Z.

(** The offsets of [u] delimit its text in [s]. *)
Definition delimits (s : jsstring) (u : Sentence) : Prop :=
  (0 <= startIndex u <= endIndex u)%Z /\
  text u = substring s (Z.to_nat (startIndex u)) (Z.to_nat (endIndex u)) /\
  (endIndex u - startIndex u)%Z = Z.of_nat (length (text u)).

(** The input of the line-break example: three lines separated by U+000A. *)
Definition line_input : jsstring :=
  lit "Line one" ++ LF :: lit "Line two" ++ LF :: lit "Line three".

(** The document of the coordinator's examples. *)
Definition hello_doc : list Sentence :=
  splitIntoSentences (lit "Hello world. This is a test! Is it working?").

(** ** Shape of the normalized text *)

Definition starts_nonws (s : jsstring) : bool :=
  match s with
  | c :: _ => negb (is_ws c)
  | [] => false
  end.

(** Every whitespace code unit is a space and no two are adjacent. *)
Fixpoint isolated (s : jsstring) : bool :=
  match s with
  | [] => true
  | c :: r =>
      (if is_ws c then (c =? SP)%N && negb (starts_ws r) else true)
      && isolated r
  end.

(** Every whitespace code unit is a space that stands before a code unit
    that is not whitespace. *)
Fixpoint spaced (s : jsstring) : bool :=
  match s with
  | [] => true
  | c :: r =>
      (if is_ws c then (c =? SP)%N && starts_nonws r else true) && spaced r
  end.

(** Words separated by single spaces: what [normalize] returns when it is
    not empty. *)
Definition tight (s : jsstring) : bool := starts_nonws s && spaced s.

(** ** Further definitions: the segmenter up to line 70, sentence breaks *)

(** [splitIntoSentences] without its fallback: lines 33 to 70, then the
    [return] of line 98. *)
Definition splitIntoSentences_through_line_70 (text : jsstring)
    : list Sentence :=
  let cleanedText := trim (replace_ws text) in
  match cleanedText with
  | [] => []
  | _ :: _ =>
      let '(sentences, lastIndex) := scan cleanedText 0 [] in
      if lastIndex <? length cleanedText then
        let remainingText := trim (substring_from cleanedText lastIndex) in
        push_nonempty sentences remainingText lastIndex (length cleanedText)
      else sentences
  end.

(** A terminator directly followed by whitespace somewhere in [t]: a place
    where the expression of line 43 matches. *)
Fixpoint has_break (t : jsstring) : bool :=
  match t with
  | [] => false
  | c :: r => (is_term c && starts_ws r) || has_break r
  end.

(** The last code unit of [t] is a terminator. *)
Definition ends_term (t : jsstring) : bool :=
  match rev t with
  | c :: _ => is_term c
  | [] => false
  end.

(** Every [speak] of a trace comes directly after a [cancel]; [armed] tells
    whether the effect before the trace was a [cancel]. *)
Fixpoint speak_follows_cancel (armed : bool) (tr : list Effect) : bool :=
  match tr with
  | [] => true
  | SynthSpeak _ :: r => armed && speak_follows_cancel false r
  | SynthCancel :: r => speak_follows_cancel true r
  | _ :: r => speak_follows_cancel false r
  end.

(** ** The first content chapter (lines 198 to 328 of [handleFileUpload]) *)

(** [s.includes(pat)]. *)
Fixpoint includes (pat s : jsstring) : bool :=
  starts_with pat s
  || match s with
     | [] => false
     | _ :: r => includes pat r
     end.

(** [s.split(/\s+/)]. *)
Fixpoint split_ws_from (cur : jsstring) (s : jsstring) : list jsstring :=
  match s with
  | [] => [rev cur]
  | c :: r =>
      if is_ws c
      then (if starts_ws r then split_ws_from cur r
            else rev cur :: split_ws_from [] r)
      else split_ws_from (c :: cur) r
  end.

Definition split_ws (s : jsstring) : list jsstring := split_ws_from [] s.

(** What loading a section of the spine and extracting its text (lines 216
    to 295) comes to: the promise of [book.load] is rejected with a message,
    or [textContent] holds the text. *)
Inductive Loaded :=
| LoadFails (msg : jsstring)
| Extracted (textContent : jsstring).

(** Lower case of the letters A to Z, the other code units unchanged: what
    [toLowerCase] does on ASCII text. *)
Definition ascii_lower (s : jsstring) : jsstring :=
  map (fun c => if ((65 <=? c) && (c <=? 90))%N then (c + 32)%N else c) s.

Section FirstChapter.

(** [String.prototype.toLowerCase], whose Unicode tables are not part of
    the program. *)
Variable toLowerCase : jsstring -> jsstring.

(** [isLikelyCover] (lines 301 to 307). *)
Definition isLikelyCover (textContent : jsstring) : bool :=
  let trimmedText := toLowerCase (trim textContent) in
  (length trimmedText <? 50)
  || str_eqb trimmedText (lit "cover")
  || includes (lit "title page") trimmedText
  || includes (lit "copyright") trimmedText
  || (length (split_ws trimmedText) <? 10).

(** The test of line 309. *)
Definition isContentChapter (textContent : jsstring) : bool :=
  let trimmedText := toLowerCase (trim textContent) in
  (0 <? length trimmedText) && negb (isLikelyCover textContent).

(** The [for] loop of lines 206 to 317 over the sections of the spine, in
    order; [tries] counts down from [maxChaptersToTry]. The result is the
    error that ends the upload, or the text of the chapter found. *)
Fixpoint findContent (tries : nat) (spine : list Loaded)
    : jsstring + jsstring :=
  match tries, spine with
  | S k, Extracted textContent :: r =>
      if isContentChapter textContent then inr textContent
      else findContent k r
  | S _, LoadFails msg :: _ => inl msg
  | _, _ =>
      inl (lit "No text content found in the EPUB. The file might only contain images or unsupported content.")
  end.

Definition maxChaptersToTry : nat := 10.

(** Lines 198 to 328: the sentences handed to [setSentences], or the
    message handed to [setError]. *)
Definition firstChapterSentences (spine : list Loaded)
    : jsstring + list Sentence :=
  match findContent maxChaptersToTry spine with
  | inl msg => inl msg
  | inr textContent =>
      if is_nil (trim textContent) then
        inl (lit "No text content found in the EPUB. The file might only contain images or unsupported content.")
      else inr (splitIntoSentences textContent)
  end.

End FirstChapter.

Section Normalization.

Lemma is_ws_SP : is_ws SP = true.
Proof. reflexivity. Qed.

Lemma is_term_not_ws c : is_term c = true -> is_ws c = false.
Proof.
  unfold is_term, is_ws. intros H.
  repeat (apply orb_true_iff in H; destruct H as [H|H]);
    apply N.eqb_eq in H; subst c; reflexivity.
Qed.

(** [replace_ws] turns a whole run of whitespace into one space and
    copies the other code units. *)
Lemma replace_ws_run w s :
  w <> [] -> forallb is_ws w = true -> starts_ws s = false ->
  replace_ws (w ++ s) = SP :: replace_ws s.
Proof.
  induction w as [|c w IH]; intros N A S; [congruence|].
  simpl in A. apply andb_true_iff in A. destruct A as [A1 A2].
  simpl. rewrite A1. destruct w as [|d w'].
  - simpl. rewrite S. reflexivity.
  - simpl in A2. apply andb_true_iff in A2. destruct A2 as [A2 A3].
    change (starts_ws ((d :: w') ++ s)) with (is_ws d). rewrite A2.
    apply IH; [discriminate| |exact S].
    simpl. rewrite A2, A3. reflexivity.
Qed.

Lemma replace_ws_other c s :
  is_ws c = false -> replace_ws (c :: s) = c :: replace_ws s.
Proof. intros W. simpl. rewrite W. reflexivity. Qed.

Lemma trimStart_snoc a c :
  trimStart (a ++ [c]) =
  match trimStart a with
  | [] => if is_ws c then [] else [c]
  | t => t ++ [c]
  end.
Proof.
  induction a as [|x a IH]; simpl; [reflexivity|].
  destruct (is_ws x); [exact IH|reflexivity].
Qed.

(** [trimEnd] is [trimStart] read from the other end. *)
Lemma trimEnd_rev s : trimEnd s = rev (trimStart (rev s)).
Proof.
  induction s as [|c r IH]; [reflexivity|].
  simpl. rewrite trimStart_snoc, IH.
  destruct (trimStart (rev r)) as [|y t]; simpl.
  - destruct (is_ws c); reflexivity.
  - rewrite rev_app_distr. simpl.
    destruct (rev t ++ [y]) eqn:E; [|reflexivity].
    destruct (rev t); discriminate.
Qed.

Lemma starts_ws_replace s : starts_ws (replace_ws s) = starts_ws s.
Proof.
  induction s as [|c r IH]; simpl; [reflexivity|].
  destruct (is_ws c) eqn:W; simpl; [|exact W].
  destruct (starts_ws r) eqn:R; simpl; [|reflexivity].
  rewrite IH. reflexivity.
Qed.

Lemma isolated_replace s : isolated (replace_ws s) = true.
Proof.
  induction s as [|c r IH]; simpl; [reflexivity|].
  destruct (is_ws c) eqn:W.
  - destruct (starts_ws r) eqn:R; [exact IH|].
    simpl. rewrite starts_ws_replace, R, IH. reflexivity.
  - simpl. rewrite W, IH. reflexivity.
Qed.

Lemma isolated_trimStart s : isolated s = true -> isolated (trimStart s) = true.
Proof.
  induction s as [|c r IH]; simpl; [reflexivity|].
  intros H. apply andb_true_iff in H. destruct H as [H1 H2].
  destruct (is_ws c) eqn:W; [auto|].
  simpl. rewrite W, H2. reflexivity.
Qed.

Lemma trimStart_shape s : trimStart s = [] \/ starts_nonws (trimStart s) = true.
Proof.
  induction s as [|c r IH]; simpl; [left; reflexivity|].
  destruct (is_ws c) eqn:W; [exact IH|].
  right. simpl. rewrite W. reflexivity.
Qed.

(** [trimEnd] keeps the first code unit of what it does not empty. *)
Lemma trimEnd_head s c t : trimEnd s = c :: t -> exists r, s = c :: r.
Proof.
  destruct s as [|d r]; simpl; [discriminate|].
  destruct (trimEnd r); [destruct (is_ws d)|]; intros E;
    inversion E; subst; eauto.
Qed.

Lemma starts_nonws_trimEnd s :
  starts_nonws s = true -> starts_nonws (trimEnd s) = true.
Proof.
  destruct s as [|c r]; simpl; [discriminate|].
  intros H. apply negb_true_iff in H.
  destruct (trimEnd r); rewrite ?H; simpl; rewrite H; reflexivity.
Qed.

Lemma spaced_trimEnd s : isolated s = true -> spaced (trimEnd s) = true.
Proof.
  induction s as [|c r IH]; simpl; [reflexivity|].
  intros H. apply andb_true_iff in H. destruct H as [H1 H2].
  specialize (IH H2).
  destruct (trimEnd r) as [|d t] eqn:T.
  - destruct (is_ws c) eqn:W; simpl; [reflexivity|].
    rewrite W. reflexivity.
  - simpl in *. destruct (is_ws c) eqn:W; [|exact IH].
    apply andb_true_iff in H1. destruct H1 as [H1 H3].
    rewrite H1. simpl.
    destruct (trimEnd_head r d t T) as [r' ->]. simpl in H3.
    rewrite H3. exact IH.
Qed.

(** The normalized text is empty or made of words separated by single
    spaces. *)
Lemma normalize_shape text :
  normalize text = [] \/ tight (normalize text) = true.
Proof.
  unfold normalize, trim, tight.
  pose proof (isolated_trimStart _ (isolated_replace text)) as I.
  destruct (trimStart_shape (replace_ws text)) as [E|S].
  - rewrite E. left. reflexivity.
  - right. rewrite (starts_nonws_trimEnd _ S), (spaced_trimEnd _ I).
    reflexivity.
Qed.

Lemma replace_ws_spaced s : spaced s = true -> replace_ws s = s.
Proof.
  induction s as [|c r IH]; simpl; [reflexivity|].
  intros H. apply andb_true_iff in H. destruct H as [H1 H2].
  rewrite (IH H2). destruct (is_ws c) eqn:W; [|reflexivity].
  apply andb_true_iff in H1. destruct H1 as [H1 H3].
  apply N.eqb_eq in H1. subst c.
  destruct r as [|d r']; simpl in *; [discriminate|].
  apply negb_true_iff in H3. rewrite H3. reflexivity.
Qed.

Lemma trimStart_nonws s : starts_nonws s = true -> trimStart s = s.
Proof.
  destruct s as [|c r]; simpl; [reflexivity|].
  intros H. apply negb_true_iff in H. rewrite H. reflexivity.
Qed.

Lemma trimEnd_spaced s : spaced s = true -> trimEnd s = s.
Proof.
  induction s as [|c r IH]; simpl; [reflexivity|].
  intros H. apply andb_true_iff in H. destruct H as [H1 H2].
  rewrite (IH H2). destruct r as [|d r']; [|reflexivity].
  destruct (is_ws c); [|reflexivity].
  simpl in H1. rewrite andb_false_r in H1. discriminate.
Qed.

Lemma trim_tight s : tight s = true -> trim s = s.
Proof.
  unfold tight, trim. intros H. apply andb_true_iff in H.
  destruct H as [H1 H2].
  rewrite (trimStart_nonws _ H1). apply trimEnd_spaced, H2.
Qed.

Lemma normalize_tight s : tight s = true -> normalize s = s.
Proof.
  intros H. unfold normalize. pose proof H as H'.
  unfold tight in H'. apply andb_true_iff in H'. destruct H' as [_ H2].
  rewrite (replace_ws_spaced _ H2). apply trim_tight, H.
Qed.

Lemma normalize_idempotent text : normalize (normalize text) = normalize text.
Proof.
  destruct (normalize_shape text) as [E|T].
  - rewrite E. reflexivity.
  - apply normalize_tight, T.
Qed.

(** The normalized text holds no line break. *)
Lemma spaced_no_LF s : spaced s = true -> ~ In LF s.
Proof.
  induction s as [|c r IH]; simpl; [tauto|].
  intros H. apply andb_true_iff in H. destruct H as [H1 H2].
  intros [E|I]; [|exact (IH H2 I)].
  subst c. simpl in H1. discriminate.
Qed.

End Normalization.

(** ** One match of the expression in a normalized text *)

Section Matching.

Lemma spaced_skipn k : forall s, spaced s = true -> spaced (skipn k s) = true.
Proof.
  induction k as [|k IH]; intros [|c r]; simpl; auto.
  intros H. apply andb_true_iff in H. apply IH, H.
Qed.

Lemma span_nth p : forall s i,
  i < span p s -> exists c, nth_error s i = Some c /\ p c = true.
Proof.
  induction s as [|c r IH]; simpl; intros i H; [lia|].
  destruct (p c) eqn:P; [|lia].
  destruct i as [|i]; simpl; [eauto|].
  apply IH. lia.
Qed.

Lemma firstn_S_nth (s : jsstring) : forall m c,
  nth_error s m = Some c -> firstn (S m) s = firstn m s ++ [c].
Proof.
  induction s as [|d r IH]; intros [|m] c; simpl; try discriminate.
  - intros E. injection E as ->. reflexivity.
  - intros E. f_equal. apply IH, E.
Qed.

Lemma trimEnd_snoc a c : is_ws c = false -> trimEnd (a ++ [c]) = a ++ [c].
Proof.
  intros W. induction a as [|x a IH]; simpl.
  - rewrite W. reflexivity.
  - rewrite IH. destruct (a ++ [c]) eqn:E; [|reflexivity].
    destruct a; discriminate.
Qed.

Lemma span_all p t r :
  forallb p t = true -> span p (t ++ r) = length t + span p r.
Proof.
induction t as [|c t IH]; simpl; [reflexivity|].
intros H. apply andb_true_iff in H. destruct H as [H1 H2].
rewrite H1, (IH H2). reflexivity.
Qed.

Lemma is_ws_not_term c : is_ws c = true -> is_term c = false.
Proof.
intros W. destruct (is_term c) eqn:T; [|reflexivity].
apply is_term_not_ws in T. congruence.
Qed.

(** Whatever way the pattern matches at the head of [s], as terminators [t]
    followed by whitespace [w], [match_here] finds a match with the same
    group 1 and at least as long: the greedy one. *)
Lemma match_here_greedy t w rest :
  t <> [] -> forallb is_term t = true ->
  w <> [] -> forallb is_ws w = true ->
  exists l0,
    match_here (t ++ w ++ rest) = Some (length t, l0) /\
    length t + length w <= l0.
Proof.
intros Nt At Nw Aw. unfold match_here.
assert (S1 : span is_term (t ++ w ++ rest) = length t).
{ rewrite (span_all _ _ _ At). destruct w as [|c w']; [congruence|].
  simpl in Aw. apply andb_true_iff in Aw. destruct Aw as [Wc _].
  simpl. rewrite (is_ws_not_term _ Wc). lia. }
rewrite S1, skipn_app, skipn_all, Nat.sub_diag.
simpl app. simpl skipn. rewrite (span_all _ _ _ Aw).
destruct t as [|a t']; [congruence|]. destruct w as [|b w']; [congruence|].
simpl length. simpl Nat.ltb. simpl andb.
eexists. split; [reflexivity|]. simpl. lia.
Qed.

Lemma search_sound s : forall i idx l1 l0,
  search s i = Some (idx, l1, l0) ->
  exists k, idx = i + k /\ match_here (skipn k s) = Some (l1, l0).
Proof.
  induction s as [|c r IH]; intros i idx l1 l0; [discriminate|].
  simpl search.
  destruct (match_here (c :: r)) as [[a b]|] eqn:M.
  - intros E. injection E as <- <- <-. exists 0. split; [lia|exact M].
  - intros E. destruct (IH _ _ _ _ E) as (k & -> & Hk).
    exists (S k). split; [lia|exact Hk].
Qed.

(** In a text whose whitespace is made of isolated inner spaces, a match
    found [k] code units further ends a non-empty trimmed piece [pre] and
    swallows exactly one space. *)
Lemma match_tight suf k l1 l0 :
  tight suf = true ->
  match_here (skipn k suf) = Some (l1, l0) ->
  exists pre rest,
    suf = pre ++ SP :: rest /\ length pre = k + l1 /\ l0 = l1 + 1 /\
    tight rest = true /\ trim pre = pre /\ pre <> [].
Proof.
  intros T M. unfold tight in T. apply andb_true_iff in T.
  destruct T as [T1 T2].
  unfold match_here in M.
  set (t := skipn k suf) in *. set (n1 := span is_term t) in *.
  destruct (0 <? n1) eqn:B1; simpl in M; [|discriminate].
  destruct (0 <? span is_ws (skipn n1 t)) eqn:B2; [|discriminate].
  apply Nat.ltb_lt in B1, B2.
  assert (W : skipn n1 t = skipn (n1 + k) suf) by apply skipn_skipn.
  rewrite W in *.
  pose proof (spaced_skipn (n1 + k) _ T2) as S2.
  destruct (skipn (n1 + k) suf) as [|c rest] eqn:E; [simpl in B2; lia|].
  simpl in B2, S2. destruct (is_ws c) eqn:Wc; [|lia].
  apply andb_true_iff in S2. destruct S2 as [S2 S3].
  apply andb_true_iff in S2. destruct S2 as [S2 S4].
  apply N.eqb_eq in S2. subst c.
  assert (Z0 : span is_ws (SP :: rest) = 1).
  { simpl. destruct rest as [|d rest']; [reflexivity|].
    simpl in S4. apply negb_true_iff in S4. simpl. rewrite S4. reflexivity. }
  rewrite Z0 in M. injection M as <- <-.
  assert (L : n1 + k < length suf).
  { assert (length (skipn (n1 + k) suf) = length suf - (n1 + k))
      by apply length_skipn.
    rewrite E in H. simpl in H. lia. }
  exists (firstn (n1 + k) suf), rest.
  assert (P : firstn (n1 + k) suf <> []).
  { intros N. apply (f_equal (@length _)) in N.
    rewrite length_firstn in N. simpl in N. lia. }
  repeat split.
  - rewrite <- E. symmetry. apply firstn_skipn.
  - rewrite length_firstn. lia.
  - unfold tight. rewrite S4, S3. reflexivity.
  - destruct (span_nth is_term t (n1 - 1)) as (c & Hc & Tc); [fold n1; lia|].
    unfold t in Hc. rewrite nth_error_skipn in Hc.
    replace (n1 + k) with (S (k + (n1 - 1))) by lia.
    rewrite (firstn_S_nth _ _ _ Hc).
    unfold trim. rewrite trimStart_nonws.
    + apply trimEnd_snoc, is_term_not_ws, Tc.
    + rewrite <- (firstn_S_nth _ _ _ Hc).
      destruct suf as [|h suf']; [discriminate|]. exact T1.
  - exact P.
Qed.

Lemma substring_prefix (pre rest s : jsstring) L :
  pre <> [] -> skipn L s = pre ++ rest ->
  substring s L (L + length pre) = pre.
Proof.
  intros N E. unfold substring.
  assert (B : L + length pre <= length s).
  { apply (f_equal (@length _)) in E.
    rewrite length_skipn, length_app in E.
    destruct pre as [|c pre']; [congruence|]. simpl in *. lia. }
  replace (Nat.min L (length s)) with L by lia.
  replace (Nat.min (L + length pre) (length s)) with (L + length pre) by lia.
  replace (Nat.max L (L + length pre) - Nat.min L (L + length pre))
    with (length pre) by lia.
  replace (Nat.min L (L + length pre)) with L by lia.
  rewrite E. rewrite firstn_app, firstn_all, Nat.sub_diag. simpl.
  apply app_nil_r.
Qed.

End Matching.

(** ** The scanning loop on a normalized text *)

Section Scan.

Lemma skipn_after (pre rest s : jsstring) L c :
  skipn L s = pre ++ c :: rest -> skipn (L + length pre + 1) s = rest.
Proof.
  intros E.
  replace (L + length pre + 1) with (S (length pre) + L) by lia.
  rewrite <- skipn_skipn, E, skipn_app.
  rewrite skipn_all2 by lia.
  replace (S (length pre) - length pre) with 1 by lia.
  reflexivity.
Qed.

Lemma exec_tight s L idx l1 l0 :
  tight (skipn L s) = true ->
  exec s L = Some (idx, l1, l0) ->
  exists pre rest,
    skipn L s = pre ++ SP :: rest /\ idx + l1 = L + length pre /\
    idx + l0 = L + length pre + 1 /\
    tight rest = true /\ trim pre = pre /\ pre <> [].
Proof.
  intros T E. unfold exec in E.
  destruct (length s <? L); [discriminate|].
  destruct (search_sound _ _ _ _ _ E) as (k & -> & M).
  destruct (match_tight _ _ _ _ T M) as (pre & rest & E1 & E2 & E3 & E4 & E5 & E6).
  exists pre, rest. repeat split; auto; lia.
Qed.

(** From an index where a word starts, the loop appends units that chain
    up to the index it stops at, where a word starts again. *)
Lemma scan_spec s L acc :
  tight (skipn L s) = true ->
  exists us L',
    scan s L acc = (acc ++ us, L') /\ tight (skipn L' s) = true /\
    forall tl, tl <> [] -> covers s L' tl -> covers s L (us ++ tl).
Proof.
  funelim (scan s L acc); intros T.
  - destruct (exec_tight _ _ _ _ _ T e)
      as (pre & rest & E1 & E2 & E3 & E4 & E5 & E6).
    clear Heqcall.
    match goal with IH : tight _ = true -> _ |- _ => rename IH into IH' end.
    rewrite E2, E3 in *.
    rewrite (substring_prefix _ _ _ _ E6 E1), E5 in *.
    rewrite (skipn_after _ _ _ _ _ E1) in IH'.
    assert (P : forall a,
               push_nonempty a pre lastIndex (lastIndex + length pre)
               = a ++ [mkSentence pre (Z.of_nat lastIndex)
                         (Z.of_nat (lastIndex + length pre))]).
    { intros a. unfold push_nonempty.
      destruct pre; [congruence|reflexivity]. }
    rewrite P in *.
    destruct (IH' E4) as (us & L' & S1 & S2 & S3).
    exists (mkSentence pre (Z.of_nat lastIndex)
              (Z.of_nat (lastIndex + length pre)) :: us), L'.
    split; [rewrite S1, <- app_assoc; reflexivity|].
    split; [exact S2|].
    intros tl N C. specialize (S3 tl N C).
    simpl. repeat split; auto.
    destruct (us ++ tl) eqn:A.
    + apply app_eq_nil in A. tauto.
    + eauto.
  - exists [], lastIndex. rewrite app_nil_r. auto.
Qed.

End Scan.

(** ** The whole function *)

Section Segmenter.

(** On a non-empty normalized text the fallback of lines 73 to 96 is never
    taken; the result is the loop's units followed by the trailing unit,
    and they cover the text. *)
Lemma splitIntoSentences_covers text :
  tight (normalize text) = true ->
  splitIntoSentences text <> [] /\
  covers (normalize text) 0 (splitIntoSentences text).
Proof.
  intros T. unfold splitIntoSentences. fold (normalize text).
  set (s := normalize text) in *.
  destruct s as [|c0 s0] eqn:Es; [discriminate|]. rewrite <- Es in *.
  destruct (scan_spec s 0 [] T) as (us & L' & S1 & S2 & S3).
  rewrite S1. simpl app.
  assert (B : L' < length s).
  { destruct (Nat.le_gt_cases (length s) L') as [G|G]; [|exact G].
    rewrite (skipn_all2 _ G) in S2. discriminate. }
  apply Nat.ltb_lt in B. rewrite B. apply Nat.ltb_lt in B.
  assert (R : substring_from s L' = skipn L' s).
  { unfold substring_from, substring.
    replace (Nat.min L' (length s)) with L' by lia.
    rewrite Nat.min_id.
    replace (Nat.max L' (length s) - Nat.min L' (length s))
      with (length (skipn L' s)) by (rewrite length_skipn; lia).
    replace (Nat.min L' (length s)) with L' by lia.
    apply firstn_all. }
  rewrite R, (trim_tight _ S2).
  assert (N : skipn L' s <> []).
  { intros E. rewrite E in S2. discriminate. }
  unfold push_nonempty.
  destruct (0 <? length (skipn L' s)) eqn:P.
  2:{ destruct (skipn L' s); [congruence|discriminate]. }
  set (u := mkSentence (skipn L' s) (Z.of_nat L') (Z.of_nat (length s))).
  assert (C : covers s 0 (us ++ [u])).
  { apply S3; [discriminate|].
    simpl. repeat split; auto.
    - rewrite length_skipn. f_equal. lia.
    - apply trim_tight, S2. }
  destruct (us ++ [u]) eqn:A.
  - apply app_eq_nil in A. destruct A; discriminate.
  - split; [discriminate|exact C].
Qed.

Lemma splitIntoSentences_empty input :
  normalize input = [] -> splitIntoSentences input = [].
Proof.
  intros E. unfold splitIntoSentences. fold (normalize input).
  rewrite E. reflexivity.
Qed.

Lemma covers_join s : forall us L,
  us <> [] -> covers s L us -> join_sp (map text us) = skipn L s.
Proof.
  induction us as [|u r IH]; intros L N C; [congruence|].
  destruct C as (_ & _ & _ & _ & C1 & C2).
  destruct r as [|v r'].
  - simpl. symmetry. exact C1.
  - destruct C1 as [rest C1].
    change (text u ++ SP :: join_sp (map text (v :: r')) = skipn L s).
    rewrite (IH _ ltac:(discriminate) C2).
    rewrite (skipn_after _ _ _ _ _ C1). symmetry. exact C1.
Qed.

Lemma covers_lower s : forall us L,
  covers s L us -> Forall (fun v => (Z.of_nat L <= startIndex v)%Z) us.
Proof.
  induction us as [|u r IH]; intros L C; constructor.
  - destruct C as (C0 & _). lia.
  - destruct C as (_ & _ & _ & _ & _ & C2).
    apply IH in C2. eapply Forall_impl; [|exact C2].
    simpl. intros. lia.
Qed.

Lemma covers_sorted s : forall us L, covers s L us -> StronglySorted precedes us.
Proof.
  induction us as [|u r IH]; intros L C; constructor.
  - destruct C as (_ & _ & _ & _ & _ & C2). eapply IH, C2.
  - destruct C as (C0 & C1 & _ & _ & _ & C2).
    apply covers_lower in C2. eapply Forall_impl; [|exact C2].
    unfold precedes. simpl. intros. lia.
Qed.

Lemma covers_delimits s : forall us L, covers s L us -> Forall (delimits s) us.
Proof.
  induction us as [|u r IH]; intros L C; constructor.
  - destruct C as (C0 & C1 & C3 & _ & C4 & _).
    unfold delimits. rewrite C0, C1, !Nat2Z.id.
    repeat split; try lia.
    assert (E : exists rest, skipn L s = text u ++ rest).
    { destruct r; [exists []; rewrite app_nil_r; exact C4|].
      destruct C4 as [rest C4]. eauto. }
    destruct E as [rest E].
    symmetry. exact (substring_prefix _ _ _ _ C3 E).
  - destruct C as (_ & _ & _ & _ & _ & C2). eapply IH, C2.
Qed.

Lemma covers_proper s : forall us L,
  covers s L us ->
  Forall (fun u => (startIndex u < endIndex u)%Z /\ trim (text u) <> []) us.
Proof.
  induction us as [|u r IH]; intros L C; constructor.
  - destruct C as (C0 & C1 & C3 & C5 & _).
    rewrite C0, C1, C5. split; [|exact C3].
    destruct (text u); [congruence|simpl; lia].
  - destruct C as (_ & _ & _ & _ & _ & C2). eapply IH, C2.
Qed.

(** The text handed to the engine for a whole segmented document is the
    normalized text. *)
Lemma join_segment input :
  join_sp (map text (splitIntoSentences input)) = normalize input.
Proof.
  destruct (normalize_shape input) as [E|T].
  - rewrite (splitIntoSentences_empty _ E), E. reflexivity.
  - destruct (splitIntoSentences_covers _ T) as [N C].
    apply (covers_join _ _ _ N C).
Qed.

End Segmenter.

(** ** The functions of the model on small inputs *)

Example replace_ws_runs :
  replace_ws (9 :: 10 :: lit "a" ++ 13 :: 10 :: 32 :: lit "b" ++ [160])%N
  = lit " a b ".
Proof. reflexivity. Qed.

Example trim_both_ends :
  trim (10 :: 32 :: lit "a b" ++ [9; 8232])%N = lit "a b".
Proof. reflexivity. Qed.

Example substring_swaps :
  substring (lit "abcdef") 4 1 = lit "bcd" /\
  substring (lit "abcdef") 2 99 = lit "cdef".
Proof. split; reflexivity. Qed.

Example exec_leftmost :
  exec (lit "a.b?! c. d") 0 = Some (3, 2, 3) /\
  exec (lit "a.b?! c. d") 6 = Some (7, 1, 2) /\
  exec (lit "a.b?! c. d") 9 = None.
Proof. repeat split; reflexivity. Qed.

Example split_lines_runs :
  split_lines (LF :: lit "ab" ++ LF :: LF :: lit "c" ++ [LF])
  = [[]; lit "ab"; lit "c"; []].
Proof. reflexivity. Qed.

Example indexOf_from :
  indexOf (lit "abcabc") (lit "bc") 2 = 4%Z /\
  indexOf (lit "abcabc") (lit "bc") (-5) = 1%Z /\
  indexOf (lit "abcabc") (lit "x") 0 = (-1)%Z.
Proof. repeat split; reflexivity. Qed.

Example segment_single_line :
  splitIntoSentences (lit "no punctuation single line")
  = [mkSentence (lit "no punctuation single line") 0 26].
Proof. vm_compute. reflexivity. Qed.

(** ** Properties of the segmenter *)

(** C1. The line-break fallback is not reached: [normalize] has already
    turned every line break into a space, so the three lines of
    ["Line one\nLine two\nLine three"] come back as one unit, not three. *)
Theorem line_breaks_lost :
  splitIntoSentences line_input
  = [mkSentence (lit "Line one Line two Line three") 0 28] /\
  forall input, ~ In LF (normalize input).
Proof.
  split; [vm_compute; reflexivity|].
  intros input. destruct (normalize_shape input) as [E|T].
  - rewrite E. simpl. tauto.
  - unfold tight in T. apply andb_true_iff in T. apply spaced_no_LF, T.
Qed.

(** C6. Joining the texts of the units with single spaces gives back the
    normalized input, and normalizing twice is the same as normalizing
    once. *)
Theorem join_units_is_normalized_input :
  (forall input,
     join_sp (map text (splitIntoSentences input)) = normalize input) /\
  (forall s, normalize (normalize s) = normalize s).
Proof.
  split; [exact join_segment|exact normalize_idempotent].
Qed.

(** C7. The units come in non-decreasing order of start offset, each one
    ends before the next one starts, and no unit's text is empty after
    trimming. *)
Theorem units_ordered_disjoint_nonempty input :
  StronglySorted precedes (splitIntoSentences input) /\
  Forall (fun u => (startIndex u < endIndex u)%Z /\ trim (text u) <> [])
         (splitIntoSentences input).
Proof.
  destruct (normalize_shape input) as [E|T].
  - rewrite (splitIntoSentences_empty _ E). split; constructor.
  - destruct (splitIntoSentences_covers _ T) as [_ C].
    split; [exact (covers_sorted _ _ _ C)|exact (covers_proper _ _ _ C)].
Qed.

(** C8. ["Hello world. This is a test! Is it working?"] is cut into exactly
    three units with the texts ["Hello world."], ["This is a test!"] and
    ["Is it working?"]. *)
Theorem hello_world_three_units :
  map text (splitIntoSentences
              (lit "Hello world. This is a test! Is it working?"))
  = [lit "Hello world."; lit "This is a test!"; lit "Is it working?"].
Proof. vm_compute. reflexivity. Qed.

(** C10. Every unit's text is the substring of the normalized input at
    [startIndex, endIndex), and [endIndex - startIndex] is the length of the
    text. *)
Theorem offsets_delimit_text input :
  Forall (delimits (normalize input)) (splitIntoSentences input).
Proof.
  destruct (normalize_shape input) as [E|T].
  - rewrite (splitIntoSentences_empty _ E). constructor.
  - destruct (splitIntoSentences_covers _ T) as [_ C].
    exact (covers_delimits _ _ _ C).
Qed.

(** ** Resolving a boundary event to a sentence *)

Section Resolve.

Lemma resolve_down_app a b o :
  resolve_down (a ++ b) o =
  match resolve_down a o with
  | Some j => Some j
  | None => resolve_down b o
  end.
Proof.
  induction a as [|e a IH]; simpl; [reflexivity|].
  destruct (charStart e <=? o)%Z; [reflexivity|exact IH].
Qed.

(** The scan from the end prefers the later entries. *)
Lemma resolve_cons e table o :
  resolve (e :: table) o =
  match resolve table o with
  | Some j => Some j
  | None => if (charStart e <=? o)%Z then Some (index e) else None
  end.
Proof.
  unfold resolve. simpl rev. rewrite resolve_down_app. reflexivity.
Qed.

Lemma resolve_none table o :
  resolve table o = None ->
  forall e, In e table -> (o < charStart e)%Z.
Proof.
  induction table as [|e0 table IH]; intros R e I; [destruct I|].
  rewrite resolve_cons in R.
  destruct (resolve table o) eqn:R'; [discriminate|].
  destruct (charStart e0 <=? o)%Z eqn:B; [discriminate|].
  apply Z.leb_gt in B.
  destruct I as [<-|I]; [exact B|exact (IH eq_refl e I)].
Qed.

Lemma startIndices_index l : forall i c e,
  In e (startIndices l i c) -> (i <= index e)%Z.
Proof.
  induction l as [|s r IH]; intros i c e I; [destruct I|].
  destruct I as [<-|I]; simpl; [lia|].
  apply IH in I. lia.
Qed.

Lemma resolve_in table o j :
  resolve table o = Some j ->
  exists e, In e table /\ index e = j /\ (charStart e <= o)%Z.
Proof.
  induction table as [|e0 table IH]; intros R; [discriminate|].
  rewrite resolve_cons in R.
  destruct (resolve table o) eqn:R'.
  - injection R as ->. destruct (IH eq_refl) as (e & I & E).
    exists e. split; [right; exact I|exact E].
  - destruct (charStart e0 <=? o)%Z eqn:B; [|discriminate].
    injection R as <-. apply Z.leb_le in B.
    exists e0. split; [left; reflexivity|]. split; [reflexivity|exact B].
Qed.

(** The resolved entry has the greatest index among those that start at
    or before the offset. *)
Lemma resolve_greatest l : forall i c o j,
  resolve (startIndices l i c) o = Some j ->
  forall e, In e (startIndices l i c) ->
            (charStart e <= o)%Z -> (index e <= j)%Z.
Proof.
  induction l as [|s r IH]; intros i c o j R e I B; [destruct I|].
  simpl startIndices in *. rewrite resolve_cons in R.
  destruct (resolve (startIndices r (i + 1)
              (c + Z.of_nat (length (text s)) + 1)) o) as [j'|] eqn:R'.
  - injection R as ->. destruct I as [<-|I].
    + destruct (resolve_in _ _ _ R') as (e' & I' & <- & _).
      apply startIndices_index in I'. simpl. lia.
    + exact (IH _ _ _ _ R' e I B).
  - destruct I as [<-|I].
    + simpl in R. destruct (c <=? o)%Z; [|discriminate].
      injection R as <-. simpl. lia.
    + pose proof (resolve_none _ _ R' e I). lia.
Qed.

Lemma resolve_mono l : forall i c o1 o2 i1,
  (o1 <= o2)%Z ->
  resolve (startIndices l i c) o1 = Some i1 ->
  exists i2, resolve (startIndices l i c) o2 = Some i2 /\ (i1 <= i2)%Z.
Proof.
  intros i c o1 o2 i1 Le R1.
  destruct (resolve_in _ _ _ R1) as (e & I & <- & B).
  destruct (resolve (startIndices l i c) o2) as [i2|] eqn:R2.
  - exists i2. split; [reflexivity|].
    apply (resolve_greatest _ _ _ _ _ R2 e I). lia.
  - pose proof (resolve_none _ _ R2 e I). lia.
Qed.

Lemma resolve_total l i o :
  l <> [] -> (0 <= o)%Z -> resolve (startIndices l i 0) o <> None.
Proof.
  intros N B R. destruct l as [|s r]; [congruence|].
  pose proof (resolve_none _ _ R (mkEntry i 0) (or_introl eq_refl)) as H.
  simpl in H. lia.
Qed.

End Resolve.

(** ** Properties of the coordinator *)

(** C5. Within one narration request the sentence resolved from a boundary
    offset is the one with the greatest index among the entries that start
    at or before the offset, and it never goes back when the offset
    grows. *)
Theorem resolve_monotone sentences startIndex o1 o2 :
  (o1 <= o2)%Z ->
  let table := sentenceStartIndices (buildUtterance sentences startIndex) in
  (forall i1, resolve table o1 = Some i1 ->
     (exists e, In e table /\ index e = i1 /\ (charStart e <= o1)%Z) /\
     (forall e, In e table -> (charStart e <= o1)%Z -> (index e <= i1)%Z) /\
     exists i2, resolve table o2 = Some i2 /\ (i1 <= i2)%Z) /\
  (table <> [] -> (0 <= o1)%Z -> resolve table o1 <> None).
Proof.
  intros Le table. unfold table, buildUtterance. simpl.
  split.
  - intros i1 R1. split; [|split].
    + exact (resolve_in _ _ _ R1).
    + exact (resolve_greatest _ _ _ _ _ R1).
    + exact (resolve_mono _ _ _ _ _ _ Le R1).
  - intros N B. apply resolve_total; [|exact B].
    intros E. rewrite E in N. apply N. reflexivity.
Qed.

Lemma resolve_monotone_witness :
  (16 <= 30)%Z /\
  exists i2,
    resolve (sentenceStartIndices (buildUtterance hello_doc 1)) 30 = Some i2 /\
    (2 <= i2)%Z.
Proof.
  assert (Le : (16 <= 30)%Z) by lia.
  split; [exact Le|].
  destruct (resolve_monotone hello_doc 1 16 30 Le) as [H _].
  apply (H 2%Z). vm_compute. reflexivity.
Defined.

(** C2, as stated, fails: seeking out of range is not a no-op. Past the
    end (index 7 of three sentences), the speaking request is cancelled and
    the state goes from Playing on sentence 0 to Idle with no current
    sentence. Before the start (index -1), [slice] counts from the end and
    the click issues a request for the last sentence. *)
Lemma seek_out_of_range_resets :
  let st := mkState hello_doc true (Some 0%Z) None in
  let synth := mkSynth true true false 1 in
  let tr := handleSentenceClick st synth 7 in
  let back := handleSentenceClick st synth (-1) in
  (~ (0 <= 7 < Z.of_nat (length (sentences st)))%Z /\
   ~ (playbackState (run st tr) = playbackState st /\
      currentSentenceIndex (run st tr) = currentSentenceIndex st /\
      commands tr = [] /\ requests tr = [])) /\
  (~ (0 <= -1 < Z.of_nat (length (sentences st)))%Z /\
   requests back = [buildUtterance hello_doc (-1)] /\
   utt_text (buildUtterance hello_doc (-1)) = lit "Is it working?" /\
   ~ (playbackState (run st back) = playbackState st /\
      currentSentenceIndex (run st back) = currentSentenceIndex st /\
      commands back = [] /\ requests back = [])).
Proof.
  vm_compute. repeat split.
  - intros [_ H]. discriminate H.
  - intros [H _]. discriminate H.
  - intros [H _]. apply H. reflexivity.
  - intros [H _]. discriminate H.
Qed.

Section Seek.

Lemma textToRead_past_end l i :
  (Z.of_nat (length l) <= i)%Z -> textToRead l i = [].
Proof.
  intros B. unfold textToRead, slice_from.
  destruct (i <? 0)%Z eqn:N; [apply Z.ltb_lt in N; lia|].
  rewrite skipn_all2 by lia. reflexivity.
Qed.

Lemma restart_past_end st synth i :
  available synth = true ->
  (Z.of_nat (length (sentences st)) <= i)%Z ->
  restart_from st synth i =
  (if speaking synth then [SynthCancel] else [])
  ++ [SetIsPlaying false; SetCurrentSentenceIndex None].
Proof.
  intros A B. unfold restart_from.
  rewrite A, (textToRead_past_end _ _ B). reflexivity.
Qed.

End Seek.

(** C2, amended. With [speechSynthesis] present, seeking to an index at or
    past the end of the document issues no narration request, but it is not
    a no-op. When the index is the current one of a playing coordinator, the
    click pauses an engine that reports speaking and not paused, and resumes
    an engine that reports paused. In every other case it cancels the
    request that is being spoken, if any, and leaves the state Idle with no
    current sentence. *)
Theorem seek_past_end st synth i :
  available synth = true ->
  (Z.of_nat (length (sentences st)) <= i)%Z ->
  let tr := handleSentenceClick st synth i in
  let current := isPlaying st && same_index (currentSentenceIndex st) i in
  requests tr = [] /\
  tr = (if current && speaking synth && negb (paused synth) then
          [SynthPause; SetIsPlaying false]
        else if current && paused synth then
          [SynthResume; SetIsPlaying true]
        else
          (if speaking synth then [SynthCancel] else [])
          ++ [SetIsPlaying false; SetCurrentSentenceIndex None]) /\
  (current = false ->
   playbackState (run st tr) = Idle /\
   currentSentenceIndex (run st tr) = None).
Proof.
  intros A B tr current. unfold tr, current, handleSentenceClick.
  rewrite (restart_past_end _ _ _ A B), A. simpl negb. cbv iota.
  destruct (isPlaying st && same_index (currentSentenceIndex st) i).
  - split; [|split; [|discriminate]];
      destruct (speaking synth), (paused synth); reflexivity.
  - split; [|split].
    + destruct (speaking synth); reflexivity.
    + reflexivity.
    + intros _. destruct (speaking synth); split; reflexivity.
Qed.

Lemma seek_past_end_witness :
  let st := mkState hello_doc true (Some 0%Z) None in
  let synth := mkSynth true true false 1 in
  (Z.of_nat (length (sentences st)) <= 7)%Z /\
  requests (handleSentenceClick st synth 7) = [].
Proof.
  intros st synth.
  assert (B : (Z.of_nat (length (sentences st)) <= 7)%Z)
    by (vm_compute; discriminate).
  split; [exact B|].
  exact (proj1 (seek_past_end st synth 7 eq_refl B)).
Defined.

(** C3, as stated, fails. The coordinator is Playing on sentence 0, a valid
    index, and sentence 0 is clicked. The handler asks the engine before it
    pauses (lines 494 and 501). When the engine reports paused, the click
    resumes it and the state stays Playing. When the engine reports that it
    is neither speaking nor paused, as after the utterance finished and
    before its end event is handled, the click takes the restart path: the
    state becomes Idle with no current sentence and a new request is
    scheduled. *)
Lemma seek_current_depends_on_engine :
  let st := mkState hello_doc true (Some 0%Z) None in
  let resumed := handleSentenceClick st (mkSynth true true true 1) 0 in
  let restarted := handleSentenceClick st (mkSynth true false false 1) 0 in
  ((0 <= 0 < Z.of_nat (length (sentences st)))%Z /\
   playbackState st = Playing /\ currentSentenceIndex st = Some 0%Z) /\
  resumed = [SynthResume; SetIsPlaying true] /\
  playbackState (run st resumed) <> Paused /\
  restarted = [SetIsPlaying false; SetCurrentSentenceIndex None;
               SetTimeout 100 (buildUtterance hello_doc 0)] /\
  ~ (playbackState (run st restarted) = Paused /\
     currentSentenceIndex (run st restarted) = Some 0%Z /\
     requests restarted = []).
Proof.
  vm_compute. repeat split; try discriminate.
  intros [H _]. discriminate H.
Qed.

(** C3, amended. When the coordinator is Playing on sentence [i] and the
    engine, which is there, reports that it is speaking and not paused, a
    click on sentence [i] pauses the engine: the state becomes Paused, the
    current sentence stays [i] and no narration request is issued. *)
Theorem seek_current_while_speaking_pauses st synth i :
  available synth = true ->
  playbackState st = Playing ->
  currentSentenceIndex st = Some i ->
  speaking synth = true ->
  paused synth = false ->
  let tr := handleSentenceClick st synth i in
  tr = [SynthPause; SetIsPlaying false] /\
  playbackState (run st tr) = Paused /\
  currentSentenceIndex (run st tr) = Some i /\
  requests tr = [].
Proof.
  intros A P C S U tr. unfold tr, handleSentenceClick.
  assert (I : isPlaying st = true).
  { unfold playbackState in P. destruct (isPlaying st); [reflexivity|].
    destruct (is_some (currentSentenceIndex st)); discriminate. }
  rewrite I, C, S, U, A. simpl. rewrite Z.eqb_refl. simpl.
  unfold playbackState, run. simpl. rewrite C. repeat split; reflexivity.
Qed.

Lemma seek_current_while_speaking_pauses_witness :
  let st := mkState hello_doc true (Some 1%Z) None in
  let synth := mkSynth true true false 1 in
  playbackState (run st (handleSentenceClick st synth 1)) = Paused /\
  currentSentenceIndex (run st (handleSentenceClick st synth 1)) = Some 1%Z.
Proof.
  intros st synth.
  destruct (seek_current_while_speaking_pauses st synth 1
              eq_refl eq_refl eq_refl eq_refl eq_refl) as (_ & H1 & H2 & _).
  split; [exact H1|exact H2].
Defined.

(** C4. An error callback with no code, or with the code canceled or
    interrupted, shows no error message; with any other code it shows
    exactly one, which carries the code. In both cases the state becomes
    Idle and the current sentence none. *)
Theorem onerror_notifies_real_errors_only st ev_error :
  error_notifications (onerror ev_error) =
    match ev_error with
    | None | Some canceled | Some interrupted => []
    | Some c => [lit "Speech synthesis error: " ++ code_name c]
    end /\
  playbackState (run st (onerror ev_error)) = Idle /\
  currentSentenceIndex (run st (onerror ev_error)) = None.
Proof.
  destruct ev_error as [[]|]; repeat split; reflexivity.
Qed.

Section Play.

Lemma trimStart_nil x : trimStart x = [] <-> forallb is_ws x = true.
Proof.
induction x as [|c r IH]; simpl; [tauto|].
destruct (is_ws c); simpl; [exact IH|]. split; discriminate.
Qed.

Lemma trimEnd_nil x : trimEnd x = [] <-> forallb is_ws x = true.
Proof.
induction x as [|c r IH]; simpl; [tauto|].
destruct (trimEnd r) as [|d t].
- destruct (is_ws c); simpl; [|split; discriminate].
  split; intros _; [apply IH|]; reflexivity.
- split; [discriminate|]. intros H. apply andb_true_iff in H.
  destruct H as [_ H]. apply IH in H. discriminate.
Qed.

Lemma trim_nil x : trim x = [] <-> forallb is_ws x = true.
Proof.
unfold trim. rewrite trimEnd_nil. split.
- intros H. apply trimStart_nil.
  destruct (trimStart_shape x) as [E|S]; [exact E|].
  destruct (trimStart x) as [|c r]; [reflexivity|].
  simpl in *. apply negb_true_iff in S. rewrite S in H. discriminate.
- intros H. apply trimStart_nil in H. rewrite H. reflexivity.
Qed.


Lemma slice_from_0 {A : Type} (l : list A) : slice_from l 0 = l.
Proof.
unfold slice_from. rewrite Z.ltb_irrefl.
replace (Z.to_nat (Z.min 0 (Z.of_nat (length l)))) with 0 by lia.
reflexivity.
Qed.


Lemma textToRead_segment input :
  textToRead (splitIntoSentences input) 0 = normalize input.
Proof.
unfold textToRead. rewrite slice_from_0, join_segment.
destruct (normalize_shape input) as [E|T]; [rewrite E; reflexivity|].
apply trim_tight, T.
Qed.

Lemma resolve_all_later table o :
  (forall e, In e table -> (o < charStart e)%Z) -> resolve table o = None.
Proof.
induction table as [|e0 table IH]; intros H; [reflexivity|].
rewrite resolve_cons, IH by (intros e I; apply H; right; exact I).
destruct (charStart e0 <=? o)%Z eqn:B; [|reflexivity].
apply Z.leb_le in B. specialize (H e0 (or_introl eq_refl)). lia.
Qed.

Lemma startIndices_charStart l : forall i c e,
  In e (startIndices l i c) -> (c <= charStart e)%Z.
Proof.
induction l as [|s r IH]; intros i c e I; [destruct I|].
destruct I as [<-|I]; simpl; [lia|].
apply IH in I. lia.
Qed.




End Play.




(** * Further properties of the segmenter *)

Section SegmenterShape.

Lemma forallb_ws_replace s : forallb is_ws (replace_ws s) = forallb is_ws s.
Proof.
induction s as [|c r IH]; simpl; [reflexivity|].
destruct (is_ws c) eqn:W; simpl; [|rewrite W; reflexivity].
destruct (starts_ws r); simpl; exact IH.
Qed.

Lemma normalize_nil input :
  normalize input = [] <-> forallb is_ws input = true.
Proof.
unfold normalize. rewrite trim_nil, forallb_ws_replace. tauto.
Qed.

(** What the function computes on a non-empty normalized text: the units
    of the loop and then one trailing unit. *)
Lemma segment_structure input :
  tight (normalize input) = true ->
  exists us L',
    scan (normalize input) 0 [] = (us, L') /\
    L' < length (normalize input) /\
    tight (skipn L' (normalize input)) = true /\
    splitIntoSentences_through_line_70 input
    = us ++ [mkSentence (skipn L' (normalize input)) (Z.of_nat L')
               (Z.of_nat (length (normalize input)))].
Proof.
intros T. unfold splitIntoSentences_through_line_70.
fold (normalize input). set (s := normalize input) in *.
destruct s as [|c0 s0] eqn:Es; [discriminate|]. rewrite <- Es in *.
destruct (scan_spec s 0 [] T) as (us & L' & S1 & S2 & _).
simpl app in S1. exists us, L'. rewrite S1.
assert (B : L' < length s).
{ destruct (Nat.le_gt_cases (length s) L') as [G|G]; [|exact G].
  rewrite (skipn_all2 _ G) in S2. discriminate. }
repeat split; auto.
apply Nat.ltb_lt in B. rewrite B. apply Nat.ltb_lt in B.
assert (R : substring_from s L' = skipn L' s).
{ unfold substring_from, substring.
  replace (Nat.min L' (length s)) with L' by lia.
  rewrite Nat.min_id.
  replace (Nat.max L' (length s) - Nat.min L' (length s))
    with (length (skipn L' s)) by (rewrite length_skipn; lia).
  replace (Nat.min L' (length s)) with L' by lia.
  apply firstn_all. }
rewrite R, (trim_tight _ S2). unfold push_nonempty.
destruct (skipn L' s); [discriminate|reflexivity].
Qed.

Lemma covers_first s L u us : covers s L (u :: us) -> startIndex u = Z.of_nat L.
Proof. intros C. destruct C as (C0 & _). exact C0. Qed.

Lemma covers_last s : forall us L u,
  covers s L (us ++ [u]) -> endIndex u = Z.of_nat (length s).
Proof.
induction us as [|u0 r IH]; intros L u C.
- destruct C as (_ & C1 & C3 & _ & C4 & _). rewrite C1. f_equal.
  apply (f_equal (@length _)) in C4. rewrite length_skipn in C4.
  destruct (text u); [congruence|]. simpl in *. lia.
- destruct C as (_ & _ & _ & _ & _ & C2). exact (IH _ _ C2).
Qed.

Lemma covers_chain s : forall us L n u v,
  covers s L us ->
  nth_error us n = Some u -> nth_error us (S n) = Some v ->
  startIndex v = (endIndex u + 1)%Z /\
  nth_error s (Z.to_nat (endIndex u)) = Some SP.
Proof.
induction us as [|u0 r IH]; intros L n u v C Eu Ev; [destruct n; discriminate|].
destruct n as [|n].
- injection Eu as <-. destruct r as [|v0 r']; [discriminate|].
  injection Ev as <-.
  destruct C as (_ & C1 & _ & _ & [rest C4] & C2).
  apply covers_first in C2. rewrite C1, C2, Nat2Z.id. split; [lia|].
  rewrite <- nth_error_skipn, C4, nth_error_app2, Nat.sub_diag by lia.
  reflexivity.
- destruct C as (_ & _ & _ & _ & _ & C2). exact (IH _ _ _ _ C2 Eu Ev).
Qed.

Lemma covers_skipn s : forall us L n u,
  covers s L us -> nth_error us n = Some u ->
  covers s (Z.to_nat (startIndex u)) (skipn n us).
Proof.
induction us as [|u0 r IH]; intros L n u C E; [destruct n; discriminate|].
destruct n as [|n].
- injection E as <-. rewrite (covers_first _ _ _ _ C), Nat2Z.id. exact C.
- destruct C as (_ & _ & _ & _ & _ & C2). exact (IH _ _ _ C2 E).
Qed.

End SegmenterShape.

Lemma segment_nil input :
  splitIntoSentences input = [] <-> forallb is_ws input = true.
Proof.
rewrite <- normalize_nil. split.
- intros E. destruct (normalize_shape input) as [N|T]; [exact N|].
  destruct (splitIntoSentences_covers _ T) as [N _]. congruence.
- apply splitIntoSentences_empty.
Qed.

(** X1. The result is empty exactly when the input holds nothing but
    whitespace (the empty string included). *)
Theorem no_units_iff_blank input :
  splitIntoSentences input = [] <-> forallb is_ws input = true.
Proof. exact (segment_nil input). Qed.

(** X2. The units tile the normalized text: the first one starts at 0, the
    last one ends at the end of the text, and each next one starts one code
    unit after the previous one ends, that code unit being a space. *)
Theorem units_tile_normalized_text input :
  (forall u us, splitIntoSentences input = u :: us -> startIndex u = 0%Z) /\
  (forall us u, splitIntoSentences input = us ++ [u] ->
     endIndex u = Z.of_nat (length (normalize input))) /\
  (forall n u v,
     nth_error (splitIntoSentences input) n = Some u ->
     nth_error (splitIntoSentences input) (S n) = Some v ->
     startIndex v = (endIndex u + 1)%Z /\
     nth_error (normalize input) (Z.to_nat (endIndex u)) = Some SP).
Proof.
destruct (normalize_shape input) as [E|T].
- rewrite (splitIntoSentences_empty _ E). split; [|split].
  + discriminate.
  + intros us u H. destruct us; discriminate.
  + intros n u v H. destruct n; discriminate.
- destruct (splitIntoSentences_covers _ T) as [_ C].
  split; [|split].
  + intros u us E. rewrite E in C. exact (covers_first _ _ _ _ C).
  + intros us u E. rewrite E in C. exact (covers_last _ _ _ _ C).
  + intros n u v. exact (covers_chain _ _ _ _ _ _ C).
Qed.

Lemma splitIntoSentences_main input :
  splitIntoSentences input = splitIntoSentences_through_line_70 input.
Proof.
destruct (normalize_shape input) as [E|T].
- rewrite (splitIntoSentences_empty _ E).
  unfold splitIntoSentences_through_line_70. fold (normalize input).
  rewrite E. reflexivity.
- destruct (segment_structure _ T) as (us & L' & S1 & _ & _ & S4).
  unfold splitIntoSentences, splitIntoSentences_through_line_70 in *.
  fold (normalize input) in *.
  destruct (normalize input) as [|c0 s0] eqn:Es; [discriminate|].
  rewrite <- Es in *. rewrite S1 in *. cbv beta iota zeta in S4 |- *.
  rewrite S4.
  destruct (us ++ _) eqn:A; [|reflexivity].
  apply app_eq_nil in A. destruct A; discriminate.
Qed.

(** X3. The fallback of lines 72 to 96 never changes a result: the function
    returns what lines 33 to 70 have built, for every input. *)
Theorem fallback_never_taken input :
  splitIntoSentences input = splitIntoSentences_through_line_70 input.
Proof. exact (splitIntoSentences_main input). Qed.

Section Breaks.

Lemma has_break_all_term t : forallb is_term t = true -> has_break t = false.
Proof.
induction t as [|c r IH]; simpl; [reflexivity|].
intros H. apply andb_true_iff in H. destruct H as [H1 H2].
rewrite (IH H2), orb_false_r. destruct r as [|d r']; simpl.
- apply andb_false_r.
- simpl in H2. apply andb_true_iff in H2. destruct H2 as [H2 _].
  rewrite (is_term_not_ws _ H2). apply andb_false_r.
Qed.

Lemma firstn_span p s : forallb p (firstn (span p s) s) = true.
Proof.
induction s as [|c r IH]; simpl; [reflexivity|].
destruct (p c) eqn:P; simpl; [rewrite P; exact IH|reflexivity].
Qed.

Lemma match_here_l1 s l1 l0 :
  match_here s = Some (l1, l0) -> l1 = span is_term s /\ 0 < l1.
Proof.
intros M. pose proof (match_here_bounds _ _ _ M) as B.
unfold match_here in M.
destruct ((0 <? span is_term s)
          && (0 <? span is_ws (skipn (span is_term s) s))); [|discriminate].
injection M as <- _. split; [reflexivity|lia].
Qed.

Lemma match_here_none_head c r :
  match_here (c :: r) = None -> is_term c && starts_ws r = false.
Proof.
intros M. destruct (is_term c) eqn:Tc; [|reflexivity].
destruct r as [|d r']; [reflexivity|]. simpl.
destruct (is_ws d) eqn:Wd; [|reflexivity].
unfold match_here in M. simpl in M.
rewrite Tc, (is_ws_not_term _ Wd) in M. simpl in M. rewrite Wd in M.
discriminate.
Qed.

Lemma starts_ws_firstn n r : 0 < n -> starts_ws (firstn n r) = starts_ws r.
Proof. destruct n; [lia|]. destruct r; reflexivity. Qed.

Lemma ends_term_cons c t : t <> [] -> ends_term (c :: t) = ends_term t.
Proof.
intros N. unfold ends_term. simpl.
destruct (rev t) eqn:R; [|reflexivity].
apply (f_equal (@rev _)) in R. rewrite rev_involutive in R. contradiction.
Qed.

Lemma ends_term_all t :
  t <> [] -> forallb is_term t = true -> ends_term t = true.
Proof.
intros N A. unfold ends_term. destruct (rev t) as [|c r] eqn:R.
- apply (f_equal (@rev _)) in R. rewrite rev_involutive in R. contradiction.
- rewrite forallb_forall in A. apply A, in_rev. rewrite R. left. reflexivity.
Qed.

(** The text from where the search starts through group 1 of the leftmost
    match holds no earlier break and ends with a terminator. *)
Lemma search_pre s : forall i idx l1 l0,
  search s i = Some (idx, l1, l0) ->
  has_break (firstn (idx - i + l1) s) = false /\
  ends_term (firstn (idx - i + l1) s) = true.
Proof.
induction s as [|c r IH]; intros i idx l1 l0; [discriminate|].
simpl search. destruct (match_here (c :: r)) as [[a b]|] eqn:M.
- intros E. injection E as <- <- <-.
  destruct (match_here_l1 _ _ _ M) as [-> P].
  replace (i - i + span is_term (c :: r)) with (span is_term (c :: r)) by lia.
  pose proof (firstn_span is_term (c :: r)) as A.
  split; [exact (has_break_all_term _ A)|].
  apply ends_term_all; [|exact A].
  intros N. apply (f_equal (@length _)) in N. rewrite length_firstn in N.
  pose proof (span_le is_term (c :: r)). simpl length in *. lia.
- intros E. pose proof (search_bounds _ _ _ _ _ E) as B.
  destruct (IH _ _ _ _ E) as [H1 H2].
  replace (idx - i + l1) with (S (idx - S i + l1)) by lia.
  rewrite firstn_cons.
  assert (N : firstn (idx - S i + l1) r <> []).
  { destruct r as [|d r']; [discriminate|].
    replace (idx - S i + l1) with (S (idx - S i + l1 - 1)) by lia.
    discriminate. }
  split.
  + simpl. rewrite H1, orb_false_r, starts_ws_firstn by lia.
    exact (match_here_none_head _ _ M).
  + rewrite (ends_term_cons _ _ N). exact H2.
Qed.

Lemma search_none s : forall i, search s i = None -> has_break s = false.
Proof.
induction s as [|c r IH]; intros i; [reflexivity|].
simpl search. destruct (match_here (c :: r)) as [[a b]|] eqn:M; [discriminate|].
intros E. simpl. rewrite (IH _ E), orb_false_r.
exact (match_here_none_head _ _ M).
Qed.

(** The units of the loop end with a terminator and hold no break; what
    the loop leaves holds no break either. *)
Lemma scan_closes s L acc :
  tight (skipn L s) = true ->
  exists us L',
    scan s L acc = (acc ++ us, L') /\
    Forall (fun u => has_break (text u) = false /\
                     ends_term (text u) = true) us /\
    has_break (skipn L' s) = false.
Proof.
funelim (scan s L acc); intros T.
- destruct (exec_tight _ _ _ _ _ T e)
    as (pre & rest & E1 & E2 & E3 & E4 & E5 & E6).
  clear Heqcall.
  match goal with IH : tight _ = true -> _ |- _ => rename IH into IH' end.
  assert (Q : has_break pre = false /\ ends_term pre = true).
  { pose proof e as e'. unfold exec in e'.
    destruct (length cleanedText <? lastIndex); [discriminate|].
    pose proof (search_bounds _ _ _ _ _ e') as B.
    apply search_pre in e'. rewrite E1 in e'.
    replace (idx - lastIndex + l1) with (length pre + 0) in e' by lia.
    rewrite firstn_app_2 in e'. simpl in e'. rewrite app_nil_r in e'.
    exact e'. }
  rewrite E2, E3 in *.
  rewrite (substring_prefix _ _ _ _ E6 E1), E5 in *.
  rewrite (skipn_after _ _ _ _ _ E1) in IH'.
  assert (P : forall a,
             push_nonempty a pre lastIndex (lastIndex + length pre)
             = a ++ [mkSentence pre (Z.of_nat lastIndex)
                       (Z.of_nat (lastIndex + length pre))]).
  { intros a. unfold push_nonempty.
    destruct pre; [congruence|reflexivity]. }
  rewrite P in *.
  destruct (IH' E4) as (us & L' & S1 & S2 & S3).
  exists (mkSentence pre (Z.of_nat lastIndex)
            (Z.of_nat (lastIndex + length pre)) :: us), L'.
  split; [rewrite S1, <- app_assoc; reflexivity|].
  split; [constructor; [exact Q|exact S2]|exact S3].
- exists [], lastIndex. rewrite app_nil_r.
  split; [reflexivity|]. split; [constructor|].
  pose proof e as e'. unfold exec in e'.
  destruct (length cleanedText <? lastIndex) eqn:B.
  + apply Nat.ltb_lt in B. rewrite skipn_all2 in T by lia. discriminate.
  + exact (search_none _ _ e').
Qed.

End Breaks.

(** X4. No unit holds a terminator followed by whitespace, so no unit could
    be cut further by the expression of line 43; and every unit but the
    last ends with one of [. ! ?]. *)
Theorem units_are_whole_sentences input :
  Forall (fun u => has_break (text u) = false) (splitIntoSentences input) /\
  (forall us u, splitIntoSentences input = us ++ [u] ->
     Forall (fun v => ends_term (text v) = true) us).
Proof.
destruct (normalize_shape input) as [E|T].
- rewrite (splitIntoSentences_empty _ E). split; [constructor|].
  intros us u H. destruct us; discriminate.
- destruct (segment_structure _ T) as (us & L' & S1 & _ & _ & S4).
  rewrite <- splitIntoSentences_main in S4.
  destruct (scan_closes (normalize input) 0 [] T) as (us' & L'' & C1 & C2 & C3).
  simpl app in C1. rewrite S1 in C1. injection C1 as <- <-.
  rewrite S4. split.
  + apply Forall_app. split.
    * eapply Forall_impl; [|exact C2]. simpl. tauto.
    * constructor; [exact C3|constructor].
  + intros us2 u2 H. apply app_inj_tail in H. destruct H as [<- _].
    eapply Forall_impl; [|exact C2]. simpl. tauto.
Qed.

(** X5. Segmenting the normalized text gives the same units as segmenting
    the input: the units depend on the input only up to its whitespace. *)
Theorem segment_of_normalized input :
  splitIntoSentences (normalize input) = splitIntoSentences input.
Proof.
unfold splitIntoSentences.
change (trim (replace_ws (normalize input))) with (normalize (normalize input)).
rewrite normalize_idempotent. reflexivity.
Qed.

(** * The narrated text and the offsets of a segmented document *)

Section Narration.

Lemma slice_from_nat {A : Type} (l : list A) i :
  i <= length l -> slice_from l (Z.of_nat i) = skipn i l.
Proof.
intros B. unfold slice_from.
destruct (Z.of_nat i <? 0)%Z eqn:N; [apply Z.ltb_lt in N; lia|].
f_equal. lia.
Qed.

Lemma length_trimStart x : length (trimStart x) <= length x.
Proof.
induction x as [|c r IH]; simpl; [lia|].
destruct (is_ws c); simpl; lia.
Qed.

Lemma length_trimEnd x : length (trimEnd x) <= length x.
Proof.
induction x as [|c r IH]; simpl; [lia|].
destruct (trimEnd r); [destruct (is_ws c)|]; simpl in *; lia.
Qed.

(** A non-empty text that [trim] leaves alone starts with a code unit that
    is not whitespace. *)
Lemma trim_fixed_head x : trim x = x -> x <> [] -> starts_nonws x = true.
Proof.
destruct x as [|c r]; [congruence|]. intros E _. simpl.
destruct (is_ws c) eqn:W; [|reflexivity].
unfold trim in E. simpl in E. rewrite W in E.
apply (f_equal (@length _)) in E.
pose proof (length_trimEnd (trimStart r)).
pose proof (length_trimStart r). simpl in E. lia.
Qed.

Lemma covers_tight s L u us :
  tight s = true -> covers s L (u :: us) -> tight (skipn L s) = true.
Proof.
intros T C. unfold tight in *. apply andb_true_iff in T.
destruct T as [_ T]. rewrite (spaced_skipn _ _ T), andb_true_r.
destruct C as (_ & _ & C3 & C5 & C4 & _).
pose proof (trim_fixed_head _ C5 C3) as H.
assert (E : exists rest, skipn L s = text u ++ rest).
{ destruct us; [exists []; rewrite app_nil_r; exact C4|].
  destruct C4 as [rest C4]. eauto. }
destruct E as [rest ->]. destruct (text u); [discriminate|exact H].
Qed.

(** The text narrated from unit [i] of a segmented document. *)
Lemma textToRead_unit input i u :
  nth_error (splitIntoSentences input) i = Some u ->
  textToRead (splitIntoSentences input) (Z.of_nat i)
  = skipn (Z.to_nat (startIndex u)) (normalize input) /\
  tight (skipn (Z.to_nat (startIndex u)) (normalize input)) = true.
Proof.
intros E.
assert (B : i < length (splitIntoSentences input)).
{ apply nth_error_Some. congruence. }
destruct (normalize_shape input) as [N|T].
{ rewrite (splitIntoSentences_empty _ N) in B. simpl in B. lia. }
destruct (splitIntoSentences_covers _ T) as [_ C].
pose proof (covers_skipn _ _ _ _ _ C E) as C'.
assert (N : skipn i (splitIntoSentences input) <> []).
{ intros H. apply (f_equal (@length _)) in H.
  rewrite length_skipn in H. simpl in H. lia. }
unfold textToRead. rewrite slice_from_nat by lia.
rewrite (covers_join _ _ _ N C').
destruct (skipn i (splitIntoSentences input)) as [|u' r]; [congruence|].
pose proof (covers_tight _ _ _ _ T C') as T'.
split; [exact (trim_tight _ T')|exact T'].
Qed.

Lemma startIndices_range l : forall i c e,
  In e (startIndices l i c) ->
  (i <= index e < i + Z.of_nat (length l))%Z.
Proof.
induction l as [|s r IH]; intros i c e I; [destruct I|].
destruct I as [<-|I]; simpl index; simpl length; [lia|].
apply IH in I. lia.
Qed.

(** On units that chain in [s] from offset [L], the table entry of the
    [m]-th unit starts at that unit's offset counted from [L]; an offset
    between it and the next unit's resolves to it. *)
Lemma resolve_covers s : forall l L i c0 o m u,
  covers s L l ->
  nth_error l m = Some u ->
  (startIndex u - Z.of_nat L + c0 <= o)%Z ->
  (forall v, nth_error l (S m) = Some v ->
             (o < startIndex v - Z.of_nat L + c0)%Z) ->
  resolve (startIndices l i c0) o = Some (i + Z.of_nat m)%Z.
Proof.
induction l as [|u0 r IH]; intros L i c0 o m u C E Lo Hi;
  [destruct m; discriminate|].
simpl startIndices. rewrite resolve_cons.
destruct m as [|m].
- injection E as <-.
  rewrite resolve_all_later.
  + rewrite (covers_first _ _ _ _ C) in Lo. simpl charStart. simpl index.
    destruct (c0 <=? o)%Z eqn:B; [f_equal; lia|].
    apply Z.leb_gt in B. lia.
  + intros e I. destruct r as [|v r']; [destruct I|].
    apply startIndices_charStart in I.
    specialize (Hi v eq_refl).
    destruct C as (_ & _ & _ & _ & _ & C2).
    rewrite (covers_first _ _ _ _ C2) in Hi. lia.
- destruct C as (_ & _ & _ & _ & _ & C2).
  rewrite (IH _ (i + 1)%Z _ o m u C2 E).
  + f_equal. lia.
  + lia.
  + intros v Ev. specialize (Hi v Ev). lia.
Qed.

End Narration.

(** X6. In a segmented document, the text handed to the engine for unit
    [i] is the normalized text from that unit's start offset to its end. *)
Theorem narrated_text_is_text_from_unit input i u :
  nth_error (splitIntoSentences input) i = Some u ->
  utt_text (buildUtterance (splitIntoSentences input) (Z.of_nat i))
  = skipn (Z.to_nat (startIndex u)) (normalize input).
Proof.
intros E. exact (proj1 (textToRead_unit _ _ _ E)).
Qed.

Lemma narrated_text_is_text_from_unit_witness :
  utt_text (buildUtterance hello_doc 1)
  = lit "This is a test! Is it working?".
Proof.
assert (E : nth_error
              (splitIntoSentences
                 (lit "Hello world. This is a test! Is it working?")) 1
            = Some (mkSentence (lit "This is a test!") 13 28))
  by (vm_compute; reflexivity).
pose proof (narrated_text_is_text_from_unit _ _ _ E) as H.
unfold hello_doc. change 1%Z with (Z.of_nat 1). rewrite H.
vm_compute. reflexivity.
Defined.

(** X7. A boundary event at offset [o] of the text narrated from unit [i]
    is offset [startIndex of unit i + o] of the normalized text; when that
    lies at or after the start of unit [j] and before the start of unit
    [j + 1], the event resolves to [j]. *)
Theorem boundary_resolves_to_enclosing_unit input i j ui uj o :
  i <= j ->
  nth_error (splitIntoSentences input) i = Some ui ->
  nth_error (splitIntoSentences input) j = Some uj ->
  (startIndex uj <= startIndex ui + o)%Z ->
  (forall v, nth_error (splitIntoSentences input) (S j) = Some v ->
             (startIndex ui + o < startIndex v)%Z) ->
  resolve (sentenceStartIndices
             (buildUtterance (splitIntoSentences input) (Z.of_nat i))) o
  = Some (Z.of_nat j).
Proof.
intros Le Ei Ej Lo Hi.
assert (B : i < length (splitIntoSentences input)).
{ apply nth_error_Some. congruence. }
destruct (normalize_shape input) as [N|T].
{ rewrite (splitIntoSentences_empty _ N) in B. simpl in B. lia. }
destruct (splitIntoSentences_covers _ T) as [_ C].
pose proof (covers_skipn _ _ _ _ _ C Ei) as C'.
pose proof (covers_delimits _ _ _ C) as D.
assert (P : (0 <= startIndex ui)%Z).
{ rewrite Forall_forall in D.
  destruct (D ui (nth_error_In _ _ Ei)) as [[P _] _]. exact P. }
unfold buildUtterance. simpl sentenceStartIndices.
rewrite slice_from_nat by lia.
replace (Z.of_nat j) with (Z.of_nat i + Z.of_nat (j - i))%Z by lia.
apply (resolve_covers _ _ _ _ _ _ _ uj C').
- rewrite nth_error_skipn. replace (i + (j - i)) with j by lia. exact Ej.
- rewrite Z2Nat.id by exact P. lia.
- intros v Ev. rewrite nth_error_skipn in Ev.
  replace (i + S (j - i)) with (S j) in Ev by lia.
  specialize (Hi v Ev). rewrite Z2Nat.id by exact P. lia.
Qed.

Lemma boundary_resolves_to_enclosing_unit_witness :
  resolve (sentenceStartIndices (buildUtterance hello_doc 1)) 20 = Some 2%Z.
Proof.
assert (Ei : nth_error
               (splitIntoSentences
                  (lit "Hello world. This is a test! Is it working?")) 1
             = Some (mkSentence (lit "This is a test!") 13 28))
  by (vm_compute; reflexivity).
assert (Ej : nth_error
               (splitIntoSentences
                  (lit "Hello world. This is a test! Is it working?")) 2
             = Some (mkSentence (lit "Is it working?") 29 43))
  by (vm_compute; reflexivity).
assert (Le : 1 <= 2) by lia.
assert (Lo : (startIndex (mkSentence (lit "Is it working?") 29 43)
              <= startIndex (mkSentence (lit "This is a test!") 13 28) + 20)%Z)
  by (simpl; lia).
assert (Hi : forall v,
           nth_error
             (splitIntoSentences
                (lit "Hello world. This is a test! Is it working?")) 3
           = Some v ->
           (startIndex (mkSentence (lit "This is a test!") 13 28) + 20
            < startIndex v)%Z).
{ intros v Ev. vm_compute in Ev. discriminate. }
exact (boundary_resolves_to_enclosing_unit _ 1 2 _ _ 20 Le Ei Ej Lo Hi).
Defined.

(** X8. When a request is built from an index that is not negative, every
    index a boundary event makes current is a valid index of the
    document. *)
Theorem boundary_sets_valid_index sentences i name o j :
  (0 <= i)%Z ->
  In (SetCurrentSentenceIndex (Some j))
     (onboundary (buildUtterance sentences i) name o) ->
  (0 <= j < Z.of_nat (length sentences))%Z.
Proof.
intros P I. unfold onboundary in I.
destruct (str_eqb name (lit "word") || str_eqb name (lit "sentence"));
  [|destruct I].
destruct (resolve _ o) as [j'|] eqn:R; [|destruct I].
destruct I as [I|[I|[]]]; [|discriminate].
injection I as ->.
destruct (resolve_in _ _ _ R) as (e & Ie & <- & _).
unfold buildUtterance in Ie. simpl in Ie.
apply startIndices_range in Ie.
unfold slice_from in Ie.
destruct (i <? 0)%Z eqn:N; [apply Z.ltb_lt in N; lia|].
rewrite length_skipn in Ie. lia.
Qed.

Lemma boundary_sets_valid_index_witness :
  (0 <= 2 < Z.of_nat (length hello_doc))%Z.
Proof.
assert (P : (0 <= 1)%Z) by lia.
apply (boundary_sets_valid_index hello_doc 1 (lit "word") 20 2 P).
vm_compute. left. reflexivity.
Defined.

(** * Further properties of the playback handlers *)

Section Handlers.

Lemma requests_speak_when_ready synth u :
  available synth = true -> requests (speak_when_ready synth u) = [u].
Proof.
intros A. unfold speak_when_ready. rewrite A. simpl.
destruct (voices synth =? 0); reflexivity.
Qed.

Lemma requests_app a b : requests (a ++ b) = requests a ++ requests b.
Proof. unfold requests. apply flat_map_app. Qed.

(** The requests of [handlePlay], branch by branch. *)
Lemma requests_handlePlay st synth :
  requests (handlePlay st synth) =
  if (length (sentences st) =? 0)
     || (negb (isPlaying st) && paused synth
         && is_some (currentSentenceIndex st))
     || isPlaying st || negb (available synth)
     || is_nil (textToRead (sentences st)
                  match currentSentenceIndex st with
                  | Some c => c
                  | None => 0%Z
                  end)
  then []
  else [buildUtterance (sentences st)
          match currentSentenceIndex st with
          | Some c => c
          | None => 0%Z
          end].
Proof.
unfold handlePlay.
destruct (length (sentences st) =? 0); [reflexivity|].
destruct (available synth) eqn:A.
2:{ destruct (isPlaying st); simpl; rewrite ?orb_true_r; reflexivity. }
simpl negb. rewrite andb_false_r. cbv iota.
destruct (negb (isPlaying st) && paused synth
          && is_some (currentSentenceIndex st)); [reflexivity|].
destruct (isPlaying st).
{ simpl. rewrite requests_app. destruct (speaking synth); reflexivity. }
simpl. destruct (is_nil _); [reflexivity|].
apply requests_speak_when_ready, A.
Qed.

Lemma requests_restart_from st synth i :
  requests (restart_from st synth i) =
  if is_nil (textToRead (sentences st) i) || negb (available synth)
  then []
  else [buildUtterance (sentences st) i].
Proof.
unfold restart_from.
destruct (available synth); [|rewrite orb_true_r; reflexivity].
simpl negb. cbv iota. rewrite !requests_app.
destruct (speaking synth), (is_nil (textToRead (sentences st) i));
  reflexivity.
Qed.

(** The requests of [handleSentenceClick], branch by branch. *)
Lemma requests_handleSentenceClick st synth i :
  requests (handleSentenceClick st synth i) =
  if (isPlaying st && same_index (currentSentenceIndex st) i
      && ((speaking synth && negb (paused synth)) || paused synth))
     || is_nil (textToRead (sentences st) i) || negb (available synth)
  then []
  else [buildUtterance (sentences st) i].
Proof.
unfold handleSentenceClick.
destruct (isPlaying st && same_index (currentSentenceIndex st) i);
  [|apply requests_restart_from].
destruct (available synth) eqn:A.
2:{ simpl. rewrite !orb_true_r. reflexivity. }
simpl negb. cbv iota.
destruct (speaking synth && negb (paused synth)); [reflexivity|].
destruct (paused synth); [reflexivity|].
rewrite requests_restart_from, A. reflexivity.
Qed.

Lemma is_nil_false {A : Type} (l : list A) : is_nil l = false -> l <> [].
Proof. destruct l; [discriminate|]. intros _. discriminate. Qed.

Lemma textToRead_nil i : textToRead [] i = [].
Proof.
unfold textToRead, slice_from. rewrite skipn_nil. reflexivity.
Qed.

End Handlers.

(** X9. No handler ever asks the engine to narrate an empty text. *)
Theorem requests_have_text st synth i :
  Forall (fun u => utt_text u <> []) (requests (handlePlay st synth)) /\
  Forall (fun u => utt_text u <> [])
         (requests (handleSentenceClick st synth i)).
Proof.
rewrite requests_handlePlay, requests_handleSentenceClick. split.
- destruct (_ || is_nil _) eqn:B; constructor; [|constructor].
  apply orb_false_iff in B. destruct B as [_ B]. exact (is_nil_false _ B).
- destruct (_ || negb (available synth)) eqn:B; constructor; [|constructor].
  apply orb_false_iff in B. destruct B as [B _].
  apply orb_false_iff in B. destruct B as [_ B]. exact (is_nil_false _ B).
Qed.

(** X10. The engine is never asked to speak without a cancel directly
    before it: in [handlePlay], in [handleSentenceClick], in the timer
    callback and in the listener for the voices. *)
Theorem speak_always_follows_cancel st synth i u :
  speak_follows_cancel false (handlePlay st synth) = true /\
  speak_follows_cancel false (handleSentenceClick st synth i) = true /\
  speak_follows_cancel false (timeout_fired synth u) = true /\
  speak_follows_cancel false (voiceschanged u) = true.
Proof.
unfold handlePlay, handleSentenceClick, restart_from, timeout_fired,
  speak_when_ready, voiceschanged.
repeat split.
- destruct (length (sentences st) =? 0),
    (negb (isPlaying st) && paused synth
     && is_some (currentSentenceIndex st)),
    (isPlaying st), (speaking synth), (available synth),
    (is_nil (textToRead (sentences st)
               match currentSentenceIndex st with
               | Some c => c
               | None => 0%Z
               end)),
    (voices synth =? 0); reflexivity.
- destruct (isPlaying st && same_index (currentSentenceIndex st) i),
    (speaking synth), (paused synth),
    (is_nil (textToRead (sentences st) i)), (available synth);
    reflexivity.
- destruct (available synth), (voices synth =? 0); reflexivity.
Qed.

(** X11. With [speechSynthesis] there, the Play button pauses and resumes
    in place: pressed while playing, it leaves the state stopped on the
    same sentence and issues no request; pressed again once the engine
    reports paused, it resumes the engine, issues no request, and the state
    is the one before the two presses. *)
Theorem play_button_pause_resume st synth synth' i :
  available synth = true ->
  available synth' = true ->
  sentences st <> [] ->
  isPlaying st = true ->
  currentSentenceIndex st = Some i ->
  paused synth' = true ->
  let stopped := run st (handlePlay st synth) in
  handlePlay st synth
    = (if speaking synth then [SynthPause] else []) ++ [SetIsPlaying false] /\
  playbackState stopped = Paused /\
  currentSentenceIndex stopped = Some i /\
  handlePlay stopped synth' = [SynthResume; SetIsPlaying true] /\
  run stopped (handlePlay stopped synth') = st.
Proof.
intros A A' N P C U stopped.
assert (H : handlePlay st synth
            = (if speaking synth then [SynthPause] else [])
              ++ [SetIsPlaying false]).
{ unfold handlePlay. rewrite P, A.
  destruct (sentences st); [congruence|]. reflexivity. }
unfold stopped. rewrite H.
destruct st as [ss ip cur err]. simpl in *. subst ip cur.
assert (R : run (mkState ss true (Some i) err)
              ((if speaking synth then [SynthPause] else [])
               ++ [SetIsPlaying false])
            = mkState ss false (Some i) err)
  by (destruct (speaking synth); reflexivity).
rewrite R. unfold handlePlay. simpl. rewrite U, A'.
destruct ss; [congruence|]. repeat split; reflexivity.
Qed.

Lemma play_button_pause_resume_witness :
  let st := mkState hello_doc true (Some 1%Z) None in
  run (run st (handlePlay st (mkSynth true true false 1)))
      (handlePlay (run st (handlePlay st (mkSynth true true false 1)))
                  (mkSynth true true true 1))
  = st.
Proof.
intros st.
assert (N : sentences st <> []) by (vm_compute; discriminate).
exact (proj2 (proj2 (proj2 (proj2
  (play_button_pause_resume st (mkSynth true true false 1)
     (mkSynth true true true 1) 1 eq_refl eq_refl N eq_refl eq_refl
     eq_refl))))).
Defined.

(** X12. A handler issues at most one request. [handlePlay] builds it from
    the current sentence, or from sentence 0 when there is none, and only
    when the state is not playing; [handleSentenceClick] builds it from the
    clicked sentence. *)
Theorem one_request_from_expected_index st synth i :
  (requests (handlePlay st synth) = [] \/
   (isPlaying st = false /\
    requests (handlePlay st synth)
    = [buildUtterance (sentences st)
         match currentSentenceIndex st with
         | Some c => c
         | None => 0%Z
         end])) /\
  (requests (handleSentenceClick st synth i) = [] \/
   requests (handleSentenceClick st synth i)
   = [buildUtterance (sentences st) i]).
Proof.
rewrite requests_handlePlay, requests_handleSentenceClick. split.
- destruct (isPlaying st) eqn:P.
  + left. rewrite !orb_true_r. reflexivity.
  + destruct (_ || is_nil _); [left|right; split]; reflexivity.
- destruct (_ || negb (available synth)); [left|right]; reflexivity.
Qed.

(** X13. In a segmented document, a click on any sentence other than the
    one being played stops what is spoken, leaves the state Idle with no
    current sentence, and schedules the request built from the clicked
    sentence; when that request starts, the state is Playing on the clicked
    sentence. *)
Theorem seek_valid_unit_starts_there input st synth i u :
  sentences st = splitIntoSentences input ->
  nth_error (splitIntoSentences input) i = Some u ->
  available synth = true ->
  isPlaying st && same_index (currentSentenceIndex st) (Z.of_nat i) = false ->
  let tr := handleSentenceClick st synth (Z.of_nat i) in
  let req := buildUtterance (sentences st) (Z.of_nat i) in
  tr = (if speaking synth then [SynthCancel] else [])
       ++ [SetIsPlaying false; SetCurrentSentenceIndex None;
           SetTimeout 100 req] /\
  playbackState (run st tr) = Idle /\
  currentSentenceIndex (run st tr) = None /\
  playbackState (run (run st tr) (onstart req)) = Playing /\
  currentSentenceIndex (run (run st tr) (onstart req)) = Some (Z.of_nat i).
Proof.
intros D E A S tr req.
assert (H : tr = (if speaking synth then [SynthCancel] else [])
                 ++ [SetIsPlaying false; SetCurrentSentenceIndex None;
                     SetTimeout 100 req]).
{ unfold tr, req, handleSentenceClick, restart_from. rewrite S, A, D.
  destruct (textToRead_unit _ _ _ E) as [-> T].
  destruct (skipn _ (normalize input)); [discriminate|]. reflexivity. }
rewrite H. destruct (speaking synth); repeat split; reflexivity.
Qed.

Lemma seek_valid_unit_starts_there_witness :
  let st := mkState hello_doc true (Some 0%Z) None in
  let synth := mkSynth true true false 1 in
  handleSentenceClick st synth 2
  = [SynthCancel; SetIsPlaying false; SetCurrentSentenceIndex None;
     SetTimeout 100 (buildUtterance hello_doc 2)].
Proof.
intros st synth.
assert (E : nth_error
              (splitIntoSentences
                 (lit "Hello world. This is a test! Is it working?")) 2
            = Some (mkSentence (lit "Is it working?") 29 43))
  by (vm_compute; reflexivity).
exact (proj1 (seek_valid_unit_starts_there
                (lit "Hello world. This is a test! Is it working?")
                st synth 2 _ eq_refl E eq_refl eq_refl)).
Defined.

(** X14. Where [speechSynthesis] is missing, [handleSentenceClick] always,
    and [handlePlay] on a document that is not empty, stop with a
    [TypeError] at their first read of [window.speechSynthesis], before any
    setter and any command: the state stays as it is, no request is issued,
    and the message of lines 368 and 527 is never shown. *)
Theorem no_request_without_engine st synth i :
  available synth = false ->
  handleSentenceClick st synth i = [ThrowTypeError] /\
  (sentences st <> [] -> handlePlay st synth = [ThrowTypeError]) /\
  run st (handleSentenceClick st synth i) = st /\
  requests (handlePlay st synth) = [] /\
  requests (handleSentenceClick st synth i) = [] /\
  ~ In (lit "Speech synthesis is not supported in this browser")
       (error_notifications (handlePlay st synth)
        ++ error_notifications (handleSentenceClick st synth i)).
Proof.
intros A.
assert (C : handleSentenceClick st synth i = [ThrowTypeError]).
{ unfold handleSentenceClick, restart_from. rewrite A.
  destruct (isPlaying st && same_index (currentSentenceIndex st) i);
    reflexivity. }
assert (P : sentences st <> [] -> handlePlay st synth = [ThrowTypeError]).
{ intros N. unfold handlePlay. rewrite A.
  destruct (sentences st); [congruence|].
  destruct (isPlaying st); reflexivity. }
rewrite C. repeat split; try assumption.
- destruct (sentences st) as [|u r] eqn:E.
  + unfold handlePlay. rewrite E. reflexivity.
  + rewrite P by discriminate. reflexivity.
- destruct (sentences st) as [|u r] eqn:E.
  + unfold handlePlay. rewrite E. simpl.
    intros [H|[]]. vm_compute in H. discriminate.
  + rewrite P by discriminate. simpl. tauto.
Qed.

Lemma no_request_without_engine_witness :
  handleSentenceClick (mkState hello_doc false None None)
    (mkSynth false false false 0) 1 = [ThrowTypeError].
Proof.
exact (proj1 (no_request_without_engine
                (mkState hello_doc false None None)
                (mkSynth false false false 0) 1 eq_refl)).
Defined.

(** X15. On an empty document [handlePlay] only reports the error: it sends
    nothing to the engine and leaves the playback state and the current
    sentence as they are; a click issues no request either. *)
Theorem empty_document_is_inert st synth i :
  sentences st = [] ->
  handlePlay st synth
    = [SetError (lit "Please upload and parse an EPUB file first")] /\
  isPlaying (run st (handlePlay st synth)) = isPlaying st /\
  currentSentenceIndex (run st (handlePlay st synth))
    = currentSentenceIndex st /\
  requests (handleSentenceClick st synth i) = [].
Proof.
intros E.
assert (H : handlePlay st synth
            = [SetError (lit "Please upload and parse an EPUB file first")]).
{ unfold handlePlay. rewrite E. reflexivity. }
rewrite H, requests_handleSentenceClick, E, textToRead_nil. simpl.
rewrite orb_true_r. repeat split; reflexivity.
Qed.

Lemma empty_document_is_inert_witness :
  handlePlay (mkState [] false None None) (mkSynth true false false 1)
  = [SetError (lit "Please upload and parse an EPUB file first")].
Proof.
exact (proj1 (empty_document_is_inert (mkState [] false None None)
                (mkSynth true false false 1) 0 eq_refl)).
Defined.

(** X16. A request built from a negative index covers the last units of
    the document, as many as the index counts back, but every index its
    start and boundary callbacks make current is negative: it highlights no
    sentence. *)
Theorem negative_index_highlights_nothing sentences i :
  (i < 0)%Z ->
  slice_from sentences i
  = skipn (length sentences - Z.to_nat (- i)) sentences /\
  forall name o j,
    In (SetCurrentSentenceIndex (Some j))
       (onstart (buildUtterance sentences i)
        ++ onboundary (buildUtterance sentences i) name o) ->
    (j < 0)%Z.
Proof.
intros N. split.
{ unfold slice_from. apply Z.ltb_lt in N. rewrite N. apply Z.ltb_lt in N.
  f_equal. lia. }
intros name o j I. apply in_app_or in I. destruct I as [I|I].
- destruct I as [I|[I|[]]]; [|discriminate]. injection I as <-. exact N.
- unfold onboundary in I.
  destruct (str_eqb name (lit "word") || str_eqb name (lit "sentence"));
    [|destruct I].
  destruct (resolve _ o) as [j'|] eqn:R; [|destruct I].
  destruct I as [I|[I|[]]]; [|discriminate].
  injection I as ->.
  destruct (resolve_in _ _ _ R) as (e & Ie & <- & _).
  unfold buildUtterance in Ie. simpl in Ie.
  apply startIndices_range in Ie.
  unfold slice_from in Ie.
  apply Z.ltb_lt in N. rewrite N in Ie. apply Z.ltb_lt in N.
  rewrite length_skipn in Ie. lia.
Qed.

Lemma negative_index_highlights_nothing_witness :
  (-1 < 0)%Z /\
  slice_from hello_doc (-1)
  = skipn (length hello_doc - Z.to_nat (- -1)) hello_doc.
Proof.
assert (N : (-1 < 0)%Z) by lia.
split; [exact N|].
exact (proj1 (negative_index_highlights_nothing hello_doc (-1) N)).
Defined.

(** * The first content chapter *)

Section FirstChapterProperties.

Variable toLowerCase : jsstring -> jsstring.

Lemma str_eqb_length a : forall b, str_eqb a b = true -> length a = length b.
Proof.
induction a as [|x a IH]; intros [|y b]; simpl; try discriminate;
  [reflexivity|].
intros H. apply andb_true_iff in H. destruct H as [_ H].
f_equal. exact (IH _ H).
Qed.

(** What a result of the loop tells about the spine. *)
Lemma findContent_found tries : forall spine textContent,
  findContent toLowerCase tries spine = inr textContent ->
  exists n,
    n < tries /\ nth_error spine n = Some (Extracted textContent) /\
    isContentChapter toLowerCase textContent = true /\
    forall m, m < n ->
      exists t, nth_error spine m = Some (Extracted t) /\
                isContentChapter toLowerCase t = false.
Proof.
induction tries as [|k IH]; intros spine textContent; [discriminate|].
destruct spine as [|[msg|t] r]; simpl; try discriminate.
destruct (isContentChapter toLowerCase t) eqn:C.
- intros E. injection E as <-. exists 0.
  repeat split; [lia|exact C|]. intros m Hm. lia.
- intros E. destruct (IH _ _ E) as (n & Hn & Hnth & Hc & Hbefore).
  exists (S n). repeat split; [lia|exact Hnth|exact Hc|].
  intros [|m] Hm; [exists t; split; [reflexivity|exact C]|].
  apply Hbefore. lia.
Qed.

Lemma findContent_firstn tries : forall spine,
  findContent toLowerCase tries (firstn tries spine)
  = findContent toLowerCase tries spine.
Proof.
induction tries as [|k IH]; intros spine; [reflexivity|].
destruct spine as [|[msg|t] r]; simpl; try reflexivity.
rewrite IH. reflexivity.
Qed.

End FirstChapterProperties.

(** X17. A section is taken as the first chapter exactly when its trimmed,
    lower-cased text has at least 50 code units and at least 10 words and
    holds neither "title page" nor "copyright"; the tests for an empty text
    and for the text "cover" never decide. *)
Theorem content_chapter_criterion toLowerCase textContent :
  isContentChapter toLowerCase textContent
  = (50 <=? length (toLowerCase (trim textContent)))
    && negb (includes (lit "title page") (toLowerCase (trim textContent)))
    && negb (includes (lit "copyright") (toLowerCase (trim textContent)))
    && (10 <=? length (split_ws (toLowerCase (trim textContent)))).
Proof.
unfold isContentChapter, isLikelyCover.
set (T := toLowerCase (trim textContent)).
destruct (length T <? 50) eqn:B.
- apply Nat.ltb_lt in B.
  replace (50 <=? length T) with false
    by (symmetry; apply Nat.leb_gt; exact B).
  cbn [andb orb negb]. apply andb_false_r.
- apply Nat.ltb_ge in B.
  replace (50 <=? length T) with true by (symmetry; apply Nat.leb_le; exact B).
  replace (0 <? length T) with true by (symmetry; apply Nat.ltb_lt; lia).
  assert (E : str_eqb T (lit "cover") = false).
  { destruct (str_eqb T (lit "cover")) eqn:E; [|reflexivity].
    apply str_eqb_length in E. simpl in E. lia. }
  rewrite E. cbn [andb orb negb]. rewrite !negb_orb. f_equal.
  rewrite Nat.ltb_antisym, negb_involutive. reflexivity.
Qed.

(** X18. When the upload yields sentences, they are the segmentation of
    the first section, among the first ten of the spine, that passes the
    test of line 309; every section before it was loaded and failed the
    test; and there is at least one sentence. *)
Theorem first_chapter_found toLowerCase spine ss :
  firstChapterSentences toLowerCase spine = inr ss ->
  exists n textContent,
    n < 10 /\ nth_error spine n = Some (Extracted textContent) /\
    isContentChapter toLowerCase textContent = true /\
    (forall m, m < n ->
       exists t, nth_error spine m = Some (Extracted t) /\
                 isContentChapter toLowerCase t = false) /\
    ss = splitIntoSentences textContent /\ ss <> [].
Proof.
unfold firstChapterSentences. intros E.
destruct (findContent toLowerCase maxChaptersToTry spine) as [msg|t] eqn:F;
  [discriminate|].
destruct (is_nil (trim t)) eqn:N; [discriminate|].
injection E as <-.
destruct (findContent_found _ _ _ _ F) as (n & Hn & Hnth & Hc & Hb).
exists n, t. repeat split; auto.
intros H. apply segment_nil in H. apply trim_nil in H.
rewrite H in N. discriminate.
Qed.

Lemma first_chapter_found_witness :
  exists n textContent,
    n < 10 /\
    nth_error
      [Extracted (lit "Cover");
       Extracted (lit "Hello world. This is a test! Is it working? Yes, it works well.")]
      n = Some (Extracted textContent) /\
    splitIntoSentences textContent <> [].
Proof.
assert (E : firstChapterSentences ascii_lower
              [Extracted (lit "Cover");
               Extracted (lit "Hello world. This is a test! Is it working? Yes, it works well.")]
            = inr (splitIntoSentences
                     (lit "Hello world. This is a test! Is it working? Yes, it works well.")))
  by (vm_compute; reflexivity).
destruct (first_chapter_found _ _ _ E)
  as (n & t & Hn & Hnth & _ & _ & Hs & Hne).
exists n, t. rewrite <- Hs. auto.
Defined.

(** X19. Only the first ten sections of the spine are looked at: what
    comes after them never changes the result. *)
Theorem only_first_ten_sections toLowerCase spine :
  firstChapterSentences toLowerCase (firstn 10 spine)
  = firstChapterSentences toLowerCase spine.
Proof.
unfold firstChapterSentences, maxChaptersToTry.
rewrite findContent_firstn. reflexivity.
Qed.

(** X20. After an upload that yields sentences, Play from the Idle state
    with the engine there issues one request, from sentence 0, whose text
    is the normalized text of the chapter found. *)
Theorem play_after_upload_narrates_chapter toLowerCase spine ss st synth :
  firstChapterSentences toLowerCase spine = inr ss ->
  sentences st = ss ->
  isPlaying st = false ->
  currentSentenceIndex st = None ->
  available synth = true ->
  exists textContent,
    In (Extracted textContent) (firstn 10 spine) /\
    requests (handlePlay st synth) = [buildUtterance ss 0] /\
    utt_text (buildUtterance ss 0) = normalize textContent /\
    normalize textContent <> [].
Proof.
intros E D P C A. pose proof E as E'.
unfold firstChapterSentences in E'.
destruct (findContent toLowerCase maxChaptersToTry spine) as [msg|t] eqn:F;
  [discriminate|].
destruct (is_nil (trim t)) eqn:N; [discriminate|].
injection E' as <-.
destruct (findContent_found _ _ _ _ F) as (n & Hn & Hnth & _).
assert (T : textToRead (splitIntoSentences t) 0 = normalize t)
  by apply textToRead_segment.
assert (Q : normalize t <> []).
{ intros H. apply normalize_nil in H. apply trim_nil in H.
  rewrite H in N. discriminate. }
exists t. repeat split.
- apply (nth_error_In _ n). rewrite nth_error_firstn.
  unfold maxChaptersToTry in Hn. apply Nat.ltb_lt in Hn. rewrite Hn.
  exact Hnth.
- rewrite requests_handlePlay, D, P, C, A, T. simpl negb.
  destruct (splitIntoSentences t) eqn:S.
  { apply segment_nil in S. apply normalize_nil in S. contradiction. }
  simpl length. simpl Nat.eqb. cbn [andb orb].
  destruct (normalize t); [contradiction|].
  simpl is_some. rewrite andb_false_r. reflexivity.
- exact T.
- exact Q.
Qed.

Lemma play_after_upload_narrates_chapter_witness :
  exists textContent,
    requests
      (handlePlay
         (mkState
            (splitIntoSentences
               (lit "Hello world. This is a test! Is it working? Yes, it works well."))
            false None None)
         (mkSynth true false false 1))
    = [buildUtterance
         (splitIntoSentences
            (lit "Hello world. This is a test! Is it working? Yes, it works well."))
         0] /\
    normalize textContent <> [].
Proof.
assert (E : firstChapterSentences ascii_lower
              [Extracted (lit "Cover");
               Extracted (lit "Hello world. This is a test! Is it working? Yes, it works well.")]
            = inr (splitIntoSentences
                     (lit "Hello world. This is a test! Is it working? Yes, it works well.")))
  by (vm_compute; reflexivity).
destruct (play_after_upload_narrates_chapter ascii_lower _ _
            (mkState
               (splitIntoSentences
                  (lit "Hello world. This is a test! Is it working? Yes, it works well."))
               false None None)
            (mkSynth true false false 1) E eq_refl eq_refl eq_refl eq_refl)
  as (t & _ & R & _ & Q).
exists t. split; [exact R|exact Q].
Defined.
